(** * Carousel controller: navigation/state engine and autoplay timer

    Shallow embedding of the [Carousel] class of [carousel.ts] (and its
    compiled twin [carousel.js], and the variant [src/carousel.ts] whose
    navigation and autoplay methods are [public]).

    Modelling choices.
    - JavaScript numbers that the class computes with ([currentIndex],
      [totalSlides], [autoPlayInterval], the argument of [goToSlide], screen
      coordinates) are integers here ([Z]); the only non-integer value kept
      is [NaN], because the constructor's [||] treats it like [0].
    - The object's fields are the record [Carousel]; the part of the page
      the class writes to is the record [Dom]; [window.setInterval] and
      [clearInterval] act on the record [Window], a table of live intervals
      indexed by handle together with the next handle to hand out.
    - Methods are computations in a state-and-exception monad [M] over
      [World]; the only [throw] of the source is in [getElement].
    - The field [log] is ghost state: it records each call of
      [updateCarousel], [setInterval] and [clearInterval], most recent
      first, so that "no render was triggered" is a statement about the
      model. *)

From Stdlib Require Import ZArith DecimalString.
From stdpp Require Import gmap strings list fin_maps.

Local Open Scope string_scope.
Local Open Scope Z_scope.

(** ** Data model *)

(** [interface CarouselConfig]: every option may be absent. *)
Inductive number : Type :=
| Num (z : Z)
| NaN.

Record CarouselConfig : Type := {
  cfg_autoPlayInterval : option number;
  cfg_enableAutoPlay : option bool;
  cfg_enableLoop : option bool
}.

(** The state fields of [class Carousel]. [autoPlayTimer] is
    [number | null]. *)
Record Carousel : Type := {
  currentIndex : Z;
  totalSlides : Z;
  autoPlayInterval : Z;
  autoPlayTimer : option nat;
  isPlaying : bool;
  enableLoop : bool
}.

(** Content of the play/pause button's [svg]: the two markups the class
    writes, or whatever the page had. *)
Inductive Markup : Type :=
| PauseBars
| PlayTriangle
| PageMarkup.

(** What the class reads and writes of the page. *)
Record Dom : Type := {
  trackTransform : string;
  indicators : list bool;
  currentSlideText : string;
  totalSlidesText : string;
  prevDisabled : bool;
  nextDisabled : bool;
  playingClass : bool;
  buttonSpan : option string;
  buttonSvg : option Markup
}.

(** A live interval: the delay it was given and the clock reading when it
    was (re)armed. Every interval of the class has the callback
    [() => this.nextSlide()]. *)
Record Interval : Type := {
  delay : Z;
  armedAt : Z
}.

Record Window : Type := {
  clock : Z;
  intervals : gmap nat Interval;
  nextHandle : nat
}.

Inductive Call : Type :=
| CallUpdateCarousel
| CallSetInterval (h : nat) (ms : Z)
| CallClearInterval (h : nat).

Record World : Type := {
  this : Carousel;
  dom : Dom;
  window : Window;
  touchStartX : Z;
  touchEndX : Z;
  log : list Call
}.

(** The page as the constructor finds it. *)
Record Page : Type := {
  present : list string;
  slideCount : nat;
  dom0 : Dom
}.

(** ** The monad *)

Inductive Outcome (A : Type) : Type :=
| Ok (a : A)
| Throw (e : string).
Arguments Ok {A} a.
Arguments Throw {A} e.

Definition M (A : Type) : Type := World -> Outcome (A * World).

Definition ret {A} (a : A) : M A := fun w => Ok (a, w).

Definition bind {A B} (c : M A) (k : A -> M B) : M B :=
  fun w => match c w with
           | Ok (a, w') => k a w'
           | Throw e => Throw e
           end.

Definition get : M World := fun w => Ok (w, w).
Definition modify (f : World -> World) : M unit := fun w => Ok (tt, f w).

Declare Scope carousel_scope.
Delimit Scope carousel_scope with M.
Notation "x <- c ;; k" := (bind c (fun x => k))
  (at level 100, c at next level, right associativity) : carousel_scope.
Notation "c ;; k" := (bind c (fun _ => k))
  (at level 100, right associativity) : carousel_scope.
Local Open Scope carousel_scope.

Definition when (b : bool) (c : M unit) : M unit := if b then c else ret tt.

(** ** Field and page updates *)

Definition set_this (f : Carousel -> Carousel) (w : World) : World :=
  {| this := f (this w); dom := dom w; window := window w;
     touchStartX := touchStartX w; touchEndX := touchEndX w; log := log w |}.

Definition set_dom (f : Dom -> Dom) (w : World) : World :=
  {| this := this w; dom := f (dom w); window := window w;
     touchStartX := touchStartX w; touchEndX := touchEndX w; log := log w |}.

Definition set_window (f : Window -> Window) (w : World) : World :=
  {| this := this w; dom := dom w; window := f (window w);
     touchStartX := touchStartX w; touchEndX := touchEndX w; log := log w |}.

Definition record (c : Call) (w : World) : World :=
  {| this := this w; dom := dom w; window := window w;
     touchStartX := touchStartX w; touchEndX := touchEndX w;
     log := c :: log w |}.

Definition with_currentIndex (i : Z) (c : Carousel) : Carousel :=
  {| currentIndex := i; totalSlides := totalSlides c;
     autoPlayInterval := autoPlayInterval c; autoPlayTimer := autoPlayTimer c;
     isPlaying := isPlaying c; enableLoop := enableLoop c |}.

Definition with_autoPlayTimer (t : option nat) (c : Carousel) : Carousel :=
  {| currentIndex := currentIndex c; totalSlides := totalSlides c;
     autoPlayInterval := autoPlayInterval c; autoPlayTimer := t;
     isPlaying := isPlaying c; enableLoop := enableLoop c |}.

Definition with_isPlaying (b : bool) (c : Carousel) : Carousel :=
  {| currentIndex := currentIndex c; totalSlides := totalSlides c;
     autoPlayInterval := autoPlayInterval c; autoPlayTimer := autoPlayTimer c;
     isPlaying := b; enableLoop := enableLoop c |}.

Definition with_trackTransform (s : string) (d : Dom) : Dom :=
  {| trackTransform := s; indicators := indicators d;
     currentSlideText := currentSlideText d;
     totalSlidesText := totalSlidesText d;
     prevDisabled := prevDisabled d; nextDisabled := nextDisabled d;
     playingClass := playingClass d; buttonSpan := buttonSpan d;
     buttonSvg := buttonSvg d |}.

Definition with_indicators (l : list bool) (d : Dom) : Dom :=
  {| trackTransform := trackTransform d; indicators := l;
     currentSlideText := currentSlideText d;
     totalSlidesText := totalSlidesText d;
     prevDisabled := prevDisabled d; nextDisabled := nextDisabled d;
     playingClass := playingClass d; buttonSpan := buttonSpan d;
     buttonSvg := buttonSvg d |}.

Definition with_currentSlideText (s : string) (d : Dom) : Dom :=
  {| trackTransform := trackTransform d; indicators := indicators d;
     currentSlideText := s;
     totalSlidesText := totalSlidesText d;
     prevDisabled := prevDisabled d; nextDisabled := nextDisabled d;
     playingClass := playingClass d; buttonSpan := buttonSpan d;
     buttonSvg := buttonSvg d |}.

Definition with_totalSlidesText (s : string) (d : Dom) : Dom :=
  {| trackTransform := trackTransform d; indicators := indicators d;
     currentSlideText := currentSlideText d;
     totalSlidesText := s;
     prevDisabled := prevDisabled d; nextDisabled := nextDisabled d;
     playingClass := playingClass d; buttonSpan := buttonSpan d;
     buttonSvg := buttonSvg d |}.

Definition with_disabled (p n : bool) (d : Dom) : Dom :=
  {| trackTransform := trackTransform d; indicators := indicators d;
     currentSlideText := currentSlideText d;
     totalSlidesText := totalSlidesText d;
     prevDisabled := p; nextDisabled := n;
     playingClass := playingClass d; buttonSpan := buttonSpan d;
     buttonSvg := buttonSvg d |}.

(** The three writes [startAutoPlay] and [stopAutoPlay] make to the button:
    the [playing] class, the text of its [span] if it has one, the markup
    of its [svg] if it has one. *)
Definition with_button (playing : bool) (label : string) (icon : Markup)
    (d : Dom) : Dom :=
  {| trackTransform := trackTransform d; indicators := indicators d;
     currentSlideText := currentSlideText d;
     totalSlidesText := totalSlidesText d;
     prevDisabled := prevDisabled d; nextDisabled := nextDisabled d;
     playingClass := playing;
     buttonSpan := match buttonSpan d with
                   | Some _ => Some label
                   | None => None
                   end;
     buttonSvg := match buttonSvg d with
                  | Some _ => Some icon
                  | None => None
                  end |}.

(** [n.toString()] on an integer. *)
Definition toString (z : Z) : string := NilZero.string_of_int (Z.to_int z).

(** ** The timer table of [window] *)

Definition setInterval (ms : Z) : M nat :=
  fun w =>
    let h := nextHandle (window w) in
    Ok (h, record (CallSetInterval h ms)
             (set_window (fun win =>
                {| clock := clock win;
                   intervals := <[h := {| delay := ms; armedAt := clock win |}]>
                                  (intervals win);
                   nextHandle := S h |}) w)).

Definition clearInterval (h : nat) : M unit :=
  modify (fun w =>
    record (CallClearInterval h)
      (set_window (fun win =>
         {| clock := clock win;
            intervals := delete h (intervals win);
            nextHandle := nextHandle win |}) w)).

(** ** The class *)

(** [this.f] read in the middle of a method. *)
Definition gets {A} (f : Carousel -> A) : M A := fun w => Ok (f (this w), w).

(** [getElement]: throws when [document.querySelector] finds nothing. *)
Definition getElement (selector : string) (p : Page) : Outcome unit :=
  if bool_decide (selector ∈ present p)
  then Ok tt
  else Throw ("Élément " ++ selector ++ " introuvable")%string.

(** The [getElement] calls of the constructor, in source order; the first
    failure aborts the construction. *)
Fixpoint getElements (selectors : list string) (p : Page) : Outcome unit :=
  match selectors with
  | [] => Ok tt
  | s :: rest =>
      match getElement s p with
      | Ok _ => getElements rest p
      | Throw e => Throw e
      end
  end.

Definition required : list string :=
  ["#carouselTrack"; "#prevBtn"; "#nextBtn"; "#carouselIndicators";
   "#currentSlide"; "#totalSlides"; "#playPauseBtn"].

(** [createIndicators]: one new, inactive [.indicator] per slide, appended
    to the container. *)
Definition createIndicators : M unit :=
  n <- gets totalSlides ;;
  modify (set_dom (fun d =>
    with_indicators (indicators d ++ replicate (Z.to_nat n) false) d)).

(** [addTouchSupport] declares the two variables its listeners share. *)
Definition addTouchSupport : M unit :=
  modify (fun w =>
    {| this := this w; dom := dom w; window := window w;
       touchStartX := 0; touchEndX := 0; log := log w |}).

(** The listeners themselves are the cases of [dispatch] below. *)
Definition attachEventListeners : M unit := addTouchSupport.

Definition updateIndicators : M unit :=
  i <- gets currentIndex ;;
  modify (set_dom (fun d =>
    with_indicators
      (imap (fun index _ => bool_decide (Z.of_nat index = i)) (indicators d))
      d)).

Definition updateNavigationButtons : M unit :=
  loop <- gets enableLoop ;;
  i <- gets currentIndex ;;
  n <- gets totalSlides ;;
  when (negb loop)
    (modify (set_dom (with_disabled (i =? 0) (i =? n - 1)))).

Definition updateTotalSlides : M unit :=
  n <- gets totalSlides ;;
  modify (set_dom (with_totalSlidesText (toString n))).

Definition resetAutoPlay : M unit :=
  t <- gets autoPlayTimer ;;
  match t with
  | Some h => clearInterval h
  | None => ret tt
  end ;;
  ms <- gets autoPlayInterval ;;
  h <- setInterval ms ;;
  modify (set_this (with_autoPlayTimer (Some h))).

Definition updateCarousel : M unit :=
  modify (record CallUpdateCarousel) ;;
  i <- gets currentIndex ;;
  let offset := - i * 100 in
  modify (set_dom (with_trackTransform
                     ("translateX(" ++ toString offset ++ "%)")%string)) ;;
  updateIndicators ;;
  i <- gets currentIndex ;;
  modify (set_dom (with_currentSlideText (toString (i + 1)))) ;;
  updateNavigationButtons ;;
  playing <- gets isPlaying ;;
  when playing resetAutoPlay.

Definition previousSlide : M unit :=
  i <- gets currentIndex ;;
  loop <- gets enableLoop ;;
  n <- gets totalSlides ;;
  (if i >? 0 then modify (set_this (with_currentIndex (i - 1)))
   else if loop then modify (set_this (with_currentIndex (n - 1)))
   else ret tt) ;;
  updateCarousel.

Definition nextSlide : M unit :=
  i <- gets currentIndex ;;
  loop <- gets enableLoop ;;
  n <- gets totalSlides ;;
  (if i <? n - 1 then modify (set_this (with_currentIndex (i + 1)))
   else if loop then modify (set_this (with_currentIndex 0))
   else ret tt) ;;
  updateCarousel.

Definition goToSlide (index : Z) : M unit :=
  n <- gets totalSlides ;;
  if (index >=? 0) && (index <? n)
  then modify (set_this (with_currentIndex index)) ;; updateCarousel
  else ret tt.

Definition startAutoPlay : M unit :=
  modify (set_this (with_isPlaying true)) ;;
  modify (set_dom (with_button true "Pause" PauseBars)) ;;
  ms <- gets autoPlayInterval ;;
  h <- setInterval ms ;;
  modify (set_this (with_autoPlayTimer (Some h))).

Definition stopAutoPlay : M unit :=
  modify (set_this (with_isPlaying false)) ;;
  modify (set_dom (with_button false "Lecture automatique" PlayTriangle)) ;;
  t <- gets autoPlayTimer ;;
  match t with
  | Some h =>
      clearInterval h ;;
      modify (set_this (with_autoPlayTimer None))
  | None => ret tt
  end.

Definition toggleAutoPlay : M unit :=
  playing <- gets isPlaying ;;
  if playing then stopAutoPlay else startAutoPlay.

Definition getCurrentIndex : M Z := gets currentIndex.
Definition getTotalSlides : M Z := gets totalSlides.
Definition destroy : M unit := stopAutoPlay.

Definition init : M unit :=
  createIndicators ;;
  attachEventListeners ;;
  updateCarousel ;;
  updateTotalSlides.

(** [config.autoPlayInterval || 3000]: the right operand is taken when the
    left one is falsy, that is [undefined], [0] or [NaN]. *)
Definition or_number (o : option number) (d : Z) : Z :=
  match o with
  | Some (Num z) => if z =? 0 then d else z
  | Some NaN => d
  | None => d
  end.

(** [config.enableLoop !== undefined ? config.enableLoop : true]. *)
Definition defined_or (o : option bool) (d : bool) : bool :=
  match o with
  | Some b => b
  | None => d
  end.

(** The fields as the constructor sets them: the field initialisers
    ([currentIndex = 0], [autoPlayTimer = null], [isPlaying = false]) and
    the configuration block. *)
Definition initialFields (config : CarouselConfig) (p : Page) : Carousel :=
  {| currentIndex := 0;
     totalSlides := Z.of_nat (slideCount p);
     autoPlayInterval := or_number (cfg_autoPlayInterval config) 3000;
     autoPlayTimer := None;
     isPlaying := false;
     enableLoop := defined_or (cfg_enableLoop config) true |}.

Definition beforeInit (config : CarouselConfig) (p : Page) (win : Window)
    : World :=
  {| this := initialFields config p; dom := dom0 p; window := win;
     touchStartX := 0; touchEndX := 0; log := [] |}.

(** [new Carousel(config)] on page [p] with timer table [win]: the element
    lookups, the fields, then [init]. *)
Definition constructor (config : CarouselConfig) (p : Page) (win : Window)
    : Outcome World :=
  match getElements required p with
  | Throw e => Throw e
  | Ok _ =>
      match init (beforeInit config p win) with
      | Ok (_, w) => Ok w
      | Throw e => Throw e
      end
  end.

(** ** Input mapping and the environment *)

Inductive Event : Type :=
| PrevClick
| NextClick
| PlayPauseClick
| IndicatorClick (i : nat)
| KeyDown (key : string)
| TouchStart (screenX : Z)
| TouchEnd (screenX : Z)
| IntervalFires (h : nat)
| TimePasses (dt : Z).

Definition swipeThreshold : Z := 50.

Definition onTouchStart (screenX : Z) : M unit :=
  modify (fun w =>
    {| this := this w; dom := dom w; window := window w;
       touchStartX := screenX; touchEndX := touchEndX w; log := log w |}).

Definition onTouchEnd (screenX : Z) : M unit :=
  modify (fun w =>
    {| this := this w; dom := dom w; window := window w;
       touchStartX := touchStartX w; touchEndX := screenX; log := log w |}) ;;
  w <- get ;;
  let diff := touchStartX w - touchEndX w in
  if Z.abs diff >? swipeThreshold
  then (if diff >? 0 then nextSlide else previousSlide)
  else ret tt.

Definition onKeyDown (key : string) : M unit :=
  if String.eqb key "ArrowLeft" then previousSlide
  else if String.eqb key "ArrowRight" then nextSlide
  else ret tt.

(** The runtime runs the callback of a live interval and re-arms it; a
    cleared handle never fires. *)
Definition onInterval (h : nat) : M unit :=
  w <- get ;;
  match intervals (window w) !! h with
  | Some iv =>
      modify (set_window (fun win =>
        {| clock := clock win;
           intervals := <[h := {| delay := delay iv; armedAt := clock win |}]>
                          (intervals win);
           nextHandle := nextHandle win |})) ;;
      nextSlide
  | None => ret tt
  end.

Definition dispatch (e : Event) : M unit :=
  match e with
  | PrevClick => previousSlide
  | NextClick => nextSlide
  | PlayPauseClick => toggleAutoPlay
  | IndicatorClick i =>
      n <- gets totalSlides ;;
      if Z.of_nat i <? n then goToSlide (Z.of_nat i) else ret tt
  | KeyDown key => onKeyDown key
  | TouchStart x => onTouchStart x
  | TouchEnd x => onTouchEnd x
  | IntervalFires h => onInterval h
  | TimePasses dt =>
      modify (set_window (fun win =>
        {| clock := clock win + dt; intervals := intervals win;
           nextHandle := nextHandle win |}))
  end.

(** Running a sequence of computations, first to last. *)
Fixpoint sequence_ (cs : list (M unit)) : M unit :=
  match cs with
  | [] => ret tt
  | c :: rest => c ;; sequence_ rest
  end.

Definition run (es : list Event) : M unit := sequence_ (map dispatch es).

(** Manual navigation steps. *)
Inductive Nav : Type :=
| Next
| Prev.

Definition navigate (n : Nav) : M unit :=
  match n with
  | Next => nextSlide
  | Prev => previousSlide
  end.

(** The page script: [new Carousel({autoPlayInterval: 4000,
    enableAutoPlay: false, enableLoop: true})]. *)
Definition pageConfig : CarouselConfig :=
  {| cfg_autoPlayInterval := Some (Num 4000);
     cfg_enableAutoPlay := Some false;
     cfg_enableLoop := Some true |}.

(** A page with every required element and [n] slides, and a fresh timer
    table. *)
Definition blankDom : Dom :=
  {| trackTransform := ""; indicators := [];
     currentSlideText := "1"; totalSlidesText := "";
     prevDisabled := false; nextDisabled := false;
     playingClass := false;
     buttonSpan := Some "Lecture automatique";
     buttonSvg := Some PageMarkup |}.

Definition pageWith (n : nat) : Page :=
  {| present := required; slideCount := n; dom0 := blankDom |}.

Definition freshWindow : Window :=
  {| clock := 0; intervals := ∅; nextHandle := 1 |}.

(** The world a computation leaves behind; the world it started from if
    it threw. *)
Definition after (c : M unit) (w : World) : World :=
  match c w with
  | Ok (_, w') => w'
  | Throw _ => w
  end.

(** The page script run on a page of [n] slides. *)
Definition loaded (n : nat) : World :=
  match constructor pageConfig (pageWith n) freshWindow with
  | Ok w => w
  | Throw _ => beforeInit pageConfig (pageWith n) freshWindow
  end.

(** ** Vocabulary of the statements *)

(** The engine fields a render pass leaves alone. *)
Definition same_engine (w w' : World) : Prop :=
  currentIndex (this w') = currentIndex (this w) /\
  totalSlides (this w') = totalSlides (this w) /\
  autoPlayInterval (this w') = autoPlayInterval (this w) /\
  isPlaying (this w') = isPlaying (this w) /\
  enableLoop (this w') = enableLoop (this w).

(** Index computed by [nextSlide], read off its two tests. *)
Definition next_index (c : Carousel) : Z :=
  if currentIndex c <? totalSlides c - 1 then currentIndex c + 1
  else if enableLoop c then 0
  else currentIndex c.

(** Index computed by [previousSlide]. *)
Definition previous_index (c : Carousel) : Z :=
  if currentIndex c >? 0 then currentIndex c - 1
  else if enableLoop c then totalSlides c - 1
  else currentIndex c.

(** An index is valid for a carousel when it designates one of its
    slides. *)
Definition in_range (c : Carousel) : Prop :=
  0 <= currentIndex c < totalSlides c.

(** What [if (t !== null) clearInterval(t)] does to the timer table. *)
Definition cancel (t : option nat) (m : gmap nat Interval) : gmap nat Interval :=
  match t with
  | Some h => delete h m
  | None => m
  end.

(** [w'] is [w] after a reset of the autoplay timer: the held handle is
    cancelled and a new interval, armed at the current clock reading with
    the configured delay, takes its place. *)
Definition retimed (w w' : World) : Prop :=
  let h' := nextHandle (window w) in
  autoPlayTimer (this w') = Some h' /\
  intervals (window w') =
    <[h' := {| delay := autoPlayInterval (this w);
               armedAt := clock (window w) |}]>
      (cancel (autoPlayTimer (this w)) (intervals (window w))) /\
  nextHandle (window w') = S h' /\
  clock (window w') = clock (window w).

(** Handles in use were handed out by [setInterval]: the live ones and
    the held one are below the next handle. *)
Definition alloc (t : option nat) (m : gmap nat Interval) (nh : nat) : Prop :=
  map_Forall (fun h _ => (h < nh)%nat) m /\
  from_option (fun h => (h < nh)%nat) True t.

Definition allocated (w : World) : Prop :=
  alloc (autoPlayTimer (this w)) (intervals (window w))
        (nextHandle (window w)).

(** The timer discipline, on the four components it speaks of: the held
    handle [t], the playing flag [p], the table [m] of live intervals and
    the next handle [nh]. Every live interval is the held one, nothing
    is held while paused, and handles in use are below [nh]. *)
Definition discipline (t : option nat) (p : bool)
    (m : gmap nat Interval) (nh : nat) : Prop :=
  (forall h, is_Some (m !! h) -> t = Some h) /\
  (p = false -> t = None) /\
  (forall h, t = Some h -> (h < nh)%nat).

Definition disciplined (w : World) : Prop :=
  discipline (autoPlayTimer (this w)) (isPlaying (this w))
             (intervals (window w)) (nextHandle (window w)).

(** A property [Inv] of the held handle, the playing flag, the timer
    table and the next handle, read on a world. *)
Definition holds (Inv : option nat -> bool -> gmap nat Interval -> nat -> Prop)
    (w : World) : Prop :=
  Inv (autoPlayTimer (this w)) (isPlaying (this w))
      (intervals (window w)) (nextHandle (window w)).

(** The operations that assign [currentIndex]: [nextSlide],
    [previousSlide], and [goToSlide] with an index the guard accepts. *)
Inductive index_changing (w : World) : M unit -> Prop :=
| change_next : index_changing w nextSlide
| change_previous : index_changing w previousSlide
| change_goTo (k : Z) :
    0 <= k < totalSlides (this w) -> index_changing w (goToSlide k).

(** ** Worlds used as concrete inputs *)

(** Three slides, index 2, looping as given, not playing. *)
Definition atLastOfThree (loop : bool) : World :=
  {| this := {| currentIndex := 2; totalSlides := 3;
                autoPlayInterval := 3000; autoPlayTimer := None;
                isPlaying := false; enableLoop := loop |};
     dom := blankDom; window := freshWindow;
     touchStartX := 0; touchEndX := 0; log := [] |}.

(** Three slides, index 0, looping as given, not playing. *)
Definition atFirstOfThree (loop : bool) : World :=
  {| this := {| currentIndex := 0; totalSlides := 3;
                autoPlayInterval := 3000; autoPlayTimer := None;
                isPlaying := false; enableLoop := loop |};
     dom := blankDom; window := freshWindow;
     touchStartX := 0; touchEndX := 0; log := [] |}.

(** The page script on four slides, then the play control once. *)
Definition playing4 : World := after startAutoPlay (loaded 4).

(** A configuration that asks for autoplay and nothing else. *)
Definition autoPlayOnly : CarouselConfig :=
  {| cfg_autoPlayInterval := None;
     cfg_enableAutoPlay := Some true;
     cfg_enableLoop := None |}.

(** A configuration that only sets the interval. *)
Definition intervalOnly (ms : number) : CarouselConfig :=
  {| cfg_autoPlayInterval := Some ms;
     cfg_enableAutoPlay := None;
     cfg_enableLoop := None |}.

(** ** Steps of the engine

    What one listener does to the world, cut into the pieces the listeners
    are made of: a render pass after an index assignment, a start, a stop,
    and the three changes that come from outside (the touch variables, the
    clock, the runtime re-arming an interval that fired). *)

Definition with_touch (sx ex : Z) (w : World) : World :=
  {| this := this w; dom := dom w; window := window w;
     touchStartX := sx; touchEndX := ex; log := log w |}.

Definition advance (dt : Z) (w : World) : World :=
  set_window (fun win =>
    {| clock := clock win + dt; intervals := intervals win;
       nextHandle := nextHandle win |}) w.

Definition rearm (h : nat) (iv : Interval) (w : World) : World :=
  set_window (fun win =>
    {| clock := clock win;
       intervals := <[h := {| delay := delay iv; armedAt := clock win |}]>
                      (intervals win);
       nextHandle := nextHandle win |}) w.

(** The indices the listeners assign before a render pass: the one
    [nextSlide] computes, the one [previousSlide] computes, or one that
    passed the guard of [goToSlide]. *)
Definition nav_target (w : World) (k : Z) : Prop :=
  k = next_index (this w) \/ k = previous_index (this w) \/
  0 <= k < totalSlides (this w).

Inductive step : World -> World -> Prop :=
| step_render (w : World) (k : Z) :
    nav_target w k ->
    step w (after updateCarousel (set_this (with_currentIndex k) w))
| step_start (w : World) :
    isPlaying (this w) = false -> step w (after startAutoPlay w)
| step_stop (w : World) :
    isPlaying (this w) = true -> step w (after stopAutoPlay w)
| step_touch (w : World) (sx ex : Z) : step w (with_touch sx ex w)
| step_clock (w : World) (dt : Z) : step w (advance dt w)
| step_rearm (w : World) (h : nat) (iv : Interval) :
    intervals (window w) !! h = Some iv -> step w (rearm h iv w).

(** The page shows the current slide: track offset, counter and
    indicators all follow [currentIndex]. *)
Definition synced (w : World) : Prop :=
  trackTransform (dom w) =
    ("translateX(" ++ toString (- currentIndex (this w) * 100) ++ "%)")%string /\
  currentSlideText (dom w) = toString (currentIndex (this w) + 1) /\
  forall (j : nat) (b : bool),
    indicators (dom w) !! j = Some b ->
    b = bool_decide (Z.of_nat j = currentIndex (this w)).

(** Number of indicators carrying the [active] class. *)
Definition activeCount (l : list bool) : nat :=
  length (filter (fun b => b = true) l).

(** The play/pause button shows the playing flag. *)
Definition button_shows (w : World) : Prop :=
  playingClass (dom w) = isPlaying (this w) /\
  (forall s, buttonSpan (dom w) = Some s ->
     s = if isPlaying (this w) then "Pause"%string
         else "Lecture automatique"%string) /\
  (forall i, buttonSvg (dom w) = Some i ->
     i = if isPlaying (this w) then PauseBars else PlayTriangle).

(** While playing, the object holds a handle and that handle is live. *)
Definition driven (t : option nat) (p : bool) (m : gmap nat Interval)
    (nh : nat) : Prop :=
  discipline t p m nh /\
  (p = true -> exists h, t = Some h /\ is_Some (m !! h)).

(** [k] calls in a row. *)
Definition times (k : nat) (c : M unit) : M unit :=
  sequence_ (replicate k c).

(** A page where everything is present except one selector. *)
Definition pageWithout (s : string) : Page :=
  {| present := filter (fun x => x <> s) required;
     slideCount := 3; dom0 := blankDom |}.

(** A configuration that only disables looping. *)
Definition noLoop : CarouselConfig :=
  {| cfg_autoPlayInterval := None;
     cfg_enableAutoPlay := None;
     cfg_enableLoop := Some false |}.

(** A world of three slides at index [i], paused, looping as given. *)
Definition threeAt (i : Z) (loop : bool) : World :=
  {| this := {| currentIndex := i; totalSlides := 3;
                autoPlayInterval := 3000; autoPlayTimer := None;
                isPlaying := false; enableLoop := loop |};
     dom := blankDom; window := freshWindow;
     touchStartX := 0; touchEndX := 0; log := [] |}.

(** ** Running the methods symbolically *)

Local Close Scope string_scope.

(** Unfolds the methods and the monad down to the timer table, the
    indicator list and the number printer, which stay folded. *)
Ltac exec :=
  cbv [previousSlide nextSlide goToSlide updateCarousel updateIndicators
       updateNavigationButtons updateTotalSlides resetAutoPlay startAutoPlay
       stopAutoPlay toggleAutoPlay destroy init createIndicators
       attachEventListeners addTouchSupport onTouchStart onTouchEnd
       onKeyDown onInterval navigate
       setInterval clearInterval
       bind ret get modify gets when
       set_this set_dom set_window record
       with_currentIndex with_autoPlayTimer with_isPlaying
       with_trackTransform with_indicators with_currentSlideText
       with_totalSlidesText with_disabled with_button
       this dom window touchStartX touchEndX log
       currentIndex totalSlides autoPlayInterval autoPlayTimer isPlaying
       enableLoop
       clock intervals nextHandle negb].

Ltac open_world w :=
  let i := fresh "i" in
  let n := fresh "n" in
  let ms := fresh "ms" in
  let t := fresh "t" in
  let playing := fresh "playing" in
  let loop := fresh "loop" in
  let d := fresh "d" in
  let win := fresh "win" in
  let sx := fresh "sx" in
  let ex := fresh "ex" in
  let lg := fresh "lg" in
  destruct w as [[i n ms t playing loop] d win sx ex lg].

Lemma updateCarousel_returns (w : World) :
  exists w', updateCarousel w = Ok (tt, w') /\ same_engine w w'.
Proof.
  open_world w. unfold same_engine.
  destruct playing, loop, t; exec; eexists; (split; [reflexivity|]); simpl;
    repeat split; reflexivity.
Qed.

Lemma nextSlide_returns (w : World) :
  exists w', nextSlide w = Ok (tt, w') /\
    currentIndex (this w') = next_index (this w) /\
    totalSlides (this w') = totalSlides (this w) /\
    autoPlayInterval (this w') = autoPlayInterval (this w) /\
    isPlaying (this w') = isPlaying (this w) /\
    enableLoop (this w') = enableLoop (this w).
Proof.
  open_world w. unfold next_index. simpl.
  destruct (i <? n - 1) eqn:Hlt; destruct playing, loop, t; exec;
    rewrite ?Hlt; eexists; (split; [reflexivity|]); simpl;
    repeat split; reflexivity.
Qed.

Lemma previousSlide_returns (w : World) :
  exists w', previousSlide w = Ok (tt, w') /\
    currentIndex (this w') = previous_index (this w) /\
    totalSlides (this w') = totalSlides (this w) /\
    autoPlayInterval (this w') = autoPlayInterval (this w) /\
    isPlaying (this w') = isPlaying (this w) /\
    enableLoop (this w') = enableLoop (this w).
Proof.
  open_world w. unfold previous_index. simpl.
  destruct (i >? 0) eqn:Hgt; destruct playing, loop, t; exec;
    rewrite ?Hgt; eexists; (split; [reflexivity|]); simpl;
    repeat split; reflexivity.
Qed.

Lemma goToSlide_in_range (w : World) (k : Z) :
  0 <= k < totalSlides (this w) ->
  exists w' calls,
    goToSlide k w = Ok (tt, w') /\
    currentIndex (this w') = k /\
    totalSlides (this w') = totalSlides (this w) /\
    autoPlayInterval (this w') = autoPlayInterval (this w) /\
    isPlaying (this w') = isPlaying (this w) /\
    enableLoop (this w') = enableLoop (this w) /\
    log w' = calls ++ CallUpdateCarousel :: log w.
Proof.
  open_world w. simpl. intros Hk.
  assert (Hin : (k >=? 0) && (k <? n) = true).
  { apply andb_true_iff. split; [apply Z.geb_le | apply Z.ltb_lt]; lia. }
  destruct playing, loop, t; exec; rewrite Hin.
  all: eexists; first
    [ exists []; repeat split; reflexivity
    | eexists [_]; repeat split; reflexivity
    | eexists [_; _]; repeat split; reflexivity ].
Qed.

Lemma goToSlide_out_of_range (w : World) (k : Z) :
  ~ (0 <= k < totalSlides (this w)) ->
  goToSlide k w = Ok (tt, w).
Proof.
  open_world w. simpl. intros Hk.
  assert (Hout : (k >=? 0) && (k <? n) = false).
  { apply andb_false_iff.
    destruct (Z.geb_spec k 0); [right; apply Z.ltb_ge; lia | left; reflexivity]. }
  exec. rewrite Hout. reflexivity.
Qed.

Lemma next_index_in_range (c : Carousel) :
  in_range c -> 0 <= next_index c < totalSlides c.
Proof.
  unfold in_range, next_index. intros H.
  destruct (Z.ltb_spec (currentIndex c) (totalSlides c - 1));
    [lia | destruct (enableLoop c); lia].
Qed.

Lemma previous_index_in_range (c : Carousel) :
  in_range c -> 0 <= previous_index c < totalSlides c.
Proof.
  unfold in_range, previous_index. intros H.
  destruct (Z.gtb_spec (currentIndex c) 0);
    [lia | destruct (enableLoop c); lia].
Qed.

Lemma navigate_in_range (op : Nav) (w : World) :
  in_range (this w) ->
  exists w', navigate op w = Ok (tt, w') /\
    in_range (this w') /\
    totalSlides (this w') = totalSlides (this w).
Proof.
  intros H. destruct op; simpl.
  - destruct (nextSlide_returns w) as (w' & Hr & Hi & Hn & _).
    exists w'. split; [exact Hr|]. split; [|exact Hn].
    unfold in_range. rewrite Hi, Hn. apply next_index_in_range, H.
  - destruct (previousSlide_returns w) as (w' & Hr & Hi & Hn & _).
    exists w'. split; [exact Hr|]. split; [|exact Hn].
    unfold in_range. rewrite Hi, Hn. apply previous_index_in_range, H.
Qed.

Lemma sequence_cons (c : M unit) (cs : list (M unit)) (w w' : World) :
  c w = Ok (tt, w') -> sequence_ (c :: cs) w = sequence_ cs w'.
Proof. intros H. simpl. unfold bind. rewrite H. reflexivity. Qed.

(** ** The autoplay timer *)

Lemma nextSlide_unfold (w : World) :
  nextSlide w =
  updateCarousel (set_this (with_currentIndex (next_index (this w))) w).
Proof.
  open_world w. unfold next_index. simpl.
  destruct (i <? n - 1) eqn:Hlt; destruct loop; exec; rewrite ?Hlt;
    reflexivity.
Qed.

Lemma previousSlide_unfold (w : World) :
  previousSlide w =
  updateCarousel (set_this (with_currentIndex (previous_index (this w))) w).
Proof.
  open_world w. unfold previous_index. simpl.
  destruct (i >? 0) eqn:Hgt; destruct loop; exec; rewrite ?Hgt;
    reflexivity.
Qed.

Lemma goToSlide_unfold (w : World) (k : Z) :
  0 <= k < totalSlides (this w) ->
  goToSlide k w = updateCarousel (set_this (with_currentIndex k) w).
Proof.
  open_world w. simpl. intros Hk.
  assert (Hin : (k >=? 0) && (k <? n) = true).
  { apply andb_true_iff. split; [apply Z.geb_le | apply Z.ltb_lt]; lia. }
  exec. rewrite Hin. reflexivity.
Qed.

Lemma resetAutoPlay_retimed (w : World) :
  exists w', resetAutoPlay w = Ok (tt, w') /\ retimed w w' /\
    same_engine w w' /\
    log w' = CallSetInterval (nextHandle (window w))
                             (autoPlayInterval (this w))
             :: match autoPlayTimer (this w) with
                | Some h => [CallClearInterval h]
                | None => []
                end ++ log w.
Proof.
  open_world w. destruct win as [now m nh]. unfold retimed, same_engine.
  destruct t; exec; eexists; (split; [reflexivity|]); simpl;
    repeat split; reflexivity.
Qed.

Lemma updateCarousel_playing (w : World) :
  isPlaying (this w) = true ->
  exists w', updateCarousel w = Ok (tt, w') /\ retimed w w' /\
    same_engine w w'.
Proof.
  open_world w. destruct win as [now m nh]. unfold retimed, same_engine.
  simpl. intros ->.
  destruct loop, t; exec; eexists; (split; [reflexivity|]); simpl;
    repeat split; reflexivity.
Qed.

Lemma updateCarousel_paused (w : World) :
  isPlaying (this w) = false ->
  exists w', updateCarousel w = Ok (tt, w') /\
    this w' = this w /\ window w' = window w /\
    log w' = CallUpdateCarousel :: log w.
Proof.
  open_world w. simpl. intros ->.
  destruct loop; exec; eexists; (split; [reflexivity|]); simpl;
    repeat split; reflexivity.
Qed.

(** Consequences of a reset for an observer of the timer table. *)
Lemma retimed_observed (w w' : World) :
  allocated w -> retimed w w' ->
  (forall h, autoPlayTimer (this w) = Some h ->
             intervals (window w') !! h = None) /\
  (exists h', autoPlayTimer (this w') = Some h' /\
     autoPlayTimer (this w) <> Some h' /\
     intervals (window w) !! h' = None /\
     intervals (window w') !! h' =
       Some {| delay := autoPlayInterval (this w);
               armedAt := clock (window w') |}) /\
  (forall h, autoPlayTimer (this w) <> Some h ->
             autoPlayTimer (this w') <> Some h ->
             intervals (window w') !! h = intervals (window w) !! h).
Proof.
  intros [Hlive Hheld] (Ht & Hm & Hn & Hc).
  set (h' := nextHandle (window w)) in *.
  assert (Hfresh : intervals (window w) !! h' = None).
  { destruct (intervals (window w) !! h') as [iv|] eqn:E; [|reflexivity].
    specialize (Hlive h' iv E). simpl in Hlive. lia. }
  assert (Hne : autoPlayTimer (this w) <> Some h').
  { intros E. rewrite E in Hheld. simpl in Hheld. lia. }
  split; [|split].
  - intros h Hh. rewrite Hm, Hh. simpl.
    rewrite lookup_insert_ne by (intros ->; contradiction).
    apply lookup_delete_eq.
  - exists h'. repeat split; try assumption.
    rewrite Hm, Hc. apply lookup_insert_eq.
  - intros h Hold Hnew. rewrite Hm.
    rewrite lookup_insert_ne by (intros ->; apply Hnew; exact Ht).
    destruct (autoPlayTimer (this w)) as [h0|]; simpl; [|reflexivity].
    apply lookup_delete_ne. intros ->. apply Hold. reflexivity.
Qed.

Lemma startAutoPlay_returns (w : World) :
  exists w', startAutoPlay w = Ok (tt, w') /\
    isPlaying (this w') = true /\
    autoPlayTimer (this w') = Some (nextHandle (window w)) /\
    intervals (window w') =
      <[nextHandle (window w) :=
          {| delay := autoPlayInterval (this w);
             armedAt := clock (window w) |}]> (intervals (window w)) /\
    nextHandle (window w') = S (nextHandle (window w)) /\
    log w' = CallSetInterval (nextHandle (window w))
                             (autoPlayInterval (this w)) :: log w.
Proof.
  open_world w. destruct win as [now m nh].
  exec. eexists. repeat split; reflexivity.
Qed.

Lemma stopAutoPlay_returns (w : World) :
  exists w', stopAutoPlay w = Ok (tt, w') /\
    isPlaying (this w') = false /\
    autoPlayTimer (this w') = None /\
    intervals (window w') =
      cancel (autoPlayTimer (this w)) (intervals (window w)) /\
    nextHandle (window w') = nextHandle (window w) /\
    currentIndex (this w') = currentIndex (this w) /\
    totalSlides (this w') = totalSlides (this w) /\
    stopAutoPlay w' = Ok (tt, w').
Proof.
  open_world w. destruct win as [now m nh]. destruct d as [tr ind cs ts pd nd pc sp sv].
  destruct t, sp, sv; exec; eexists; repeat split; reflexivity.
Qed.

Section Discipline.

Variables (t : option nat) (p : bool) (m : gmap nat Interval) (nh : nat).
Hypothesis D : discipline t p m nh.

Lemma discipline_cancel_empty : cancel t m = ∅.
Proof.
  destruct D as (Hlive & _ & _). apply map_empty. intros h.
  destruct (cancel t m !! h) eqn:E; [exfalso|reflexivity].
  destruct t as [h0|]; simpl in E.
  - destruct (decide (h0 = h)) as [->|Hne].
    + rewrite lookup_delete_eq in E. discriminate.
    + rewrite lookup_delete_ne in E by exact Hne.
      assert (Some h0 = Some h) by (apply Hlive; rewrite E; eauto).
      congruence.
  - assert (@None nat = Some h) by (apply Hlive; rewrite E; eauto).
    discriminate.
Qed.

Lemma discipline_reset (iv : Interval) :
  discipline (Some nh) true (<[nh := iv]> (cancel t m)) (S nh).
Proof.
  rewrite discipline_cancel_empty. repeat split.
  - intros h [x Hx]. destruct (decide (nh = h)) as [->|Hne]; [reflexivity|].
    rewrite lookup_insert_ne, lookup_empty in Hx by exact Hne. discriminate.
  - discriminate.
  - intros h [= <-]. lia.
Qed.

Lemma discipline_stop : discipline None false (cancel t m) nh.
Proof.
  rewrite discipline_cancel_empty. repeat split.
  - intros h [x Hx]. rewrite lookup_empty in Hx. discriminate.
  - discriminate.
Qed.

Lemma discipline_start (iv : Interval) :
  p = false -> discipline (Some nh) true (<[nh := iv]> m) (S nh).
Proof.
  intros Hp. destruct D as (Hlive & Hpaused & Hheld).
  assert (Ht : t = None) by (apply Hpaused, Hp).
  assert (Hm : cancel t m = m) by (rewrite Ht; reflexivity).
  rewrite <- Hm. apply discipline_reset.
Qed.

Lemma discipline_rearm (h : nat) (iv : Interval) :
  is_Some (m !! h) -> discipline t p (<[h := iv]> m) nh.
Proof.
  intros Hh. destruct D as (Hlive & Hpaused & Hheld). repeat split.
  - intros h0 [x Hx]. destruct (decide (h = h0)) as [->|Hne].
    + apply Hlive, Hh.
    + rewrite lookup_insert_ne in Hx by exact Hne. apply Hlive. eauto.
  - exact Hpaused.
  - exact Hheld.
Qed.

Lemma discipline_size : (size m <= 1)%nat.
Proof.
  destruct D as (Hlive & _ & _).
  pose proof discipline_cancel_empty as Hc.
  destruct t as [h0|]; simpl in Hc.
  - apply (f_equal size) in Hc.
    rewrite map_size_delete, map_size_empty in Hc.
    destruct (m !! h0); simpl in Hc; unfold id in Hc; lia.
  - rewrite Hc, map_size_empty. lia.
Qed.

End Discipline.

Section Allocation.

Variables (t : option nat) (m : gmap nat Interval) (nh : nat).
Hypothesis A : alloc t m nh.

Lemma alloc_start (iv : Interval) : alloc (Some nh) (<[nh := iv]> m) (S nh).
Proof.
  destruct A as [Hlive _]. split; [|simpl; lia].
  apply map_Forall_insert_2; [lia|].
  eapply map_Forall_impl; [exact Hlive|]. simpl. intros; lia.
Qed.

Lemma alloc_stop : alloc None (cancel t m) nh.
Proof.
  destruct A as [Hlive _]. split; [|exact I].
  destruct t; simpl; [apply map_Forall_delete|]; exact Hlive.
Qed.

Lemma alloc_rearm (h : nat) (iv : Interval) :
  is_Some (m !! h) -> alloc t (<[h := iv]> m) nh.
Proof.
  intros [x Hx]. destruct A as [Hlive Hheld]. split; [|exact Hheld].
  apply map_Forall_insert_2; [exact (Hlive h x Hx) | exact Hlive].
Qed.

End Allocation.

Lemma alloc_reset (t : option nat) (m : gmap nat Interval) (nh : nat)
    (iv : Interval) :
  alloc t m nh -> alloc (Some nh) (<[nh := iv]> (cancel t m)) (S nh).
Proof.
  intros A. eapply alloc_start, alloc_stop, A.
Qed.

(** Any property of the held handle, the playing flag, the timer table
    and the next handle that survives a reset while playing, a stop, a
    start while paused and the re-arming of a live interval survives every
    event. *)
Section Invariant.

Variable Inv : option nat -> bool -> gmap nat Interval -> nat -> Prop.

Hypothesis Inv_reset : forall t m nh iv,
  Inv t true m nh -> Inv (Some nh) true (<[nh := iv]> (cancel t m)) (S nh).
Hypothesis Inv_stop : forall t p m nh,
  Inv t p m nh -> Inv None false (cancel t m) nh.
Hypothesis Inv_start : forall t m nh iv,
  Inv t false m nh -> Inv (Some nh) true (<[nh := iv]> m) (S nh).
Hypothesis Inv_rearm : forall t p m nh h iv,
  Inv t p m nh -> is_Some (m !! h) -> Inv t p (<[h := iv]> m) nh.

Lemma updateCarousel_holds (w : World) :
  holds Inv w -> exists w', updateCarousel w = Ok (tt, w') /\ holds Inv w'.
Proof.
  intros H. destruct (isPlaying (this w)) eqn:Hp.
  - destruct (updateCarousel_playing w Hp)
      as (w' & Hr & (Ht & Hm & Hn & _) & (_ & _ & _ & Hp' & _)).
    exists w'. split; [exact Hr|].
    unfold holds in *. rewrite Ht, Hm, Hn, Hp', Hp. rewrite Hp in H.
    apply Inv_reset, H.
  - destruct (updateCarousel_paused w Hp) as (w' & Hr & Hthis & Hwin & _).
    exists w'. split; [exact Hr|]. unfold holds. rewrite Hthis, Hwin. exact H.
Qed.

Lemma nextSlide_holds (w : World) :
  holds Inv w -> exists w', nextSlide w = Ok (tt, w') /\ holds Inv w'.
Proof.
  intros H. rewrite nextSlide_unfold. apply updateCarousel_holds, H.
Qed.

Lemma previousSlide_holds (w : World) :
  holds Inv w -> exists w', previousSlide w = Ok (tt, w') /\ holds Inv w'.
Proof.
  intros H. rewrite previousSlide_unfold. apply updateCarousel_holds, H.
Qed.

Lemma goToSlide_holds (w : World) (k : Z) :
  holds Inv w -> exists w', goToSlide k w = Ok (tt, w') /\ holds Inv w'.
Proof.
  intros H. destruct (decide (0 <= k < totalSlides (this w))) as [Hk|Hk].
  - rewrite goToSlide_unfold by exact Hk. apply updateCarousel_holds, H.
  - exists w. split; [apply goToSlide_out_of_range, Hk | exact H].
Qed.

Lemma stopAutoPlay_holds (w : World) :
  holds Inv w -> exists w', stopAutoPlay w = Ok (tt, w') /\ holds Inv w'.
Proof.
  intros H.
  destruct (stopAutoPlay_returns w) as (w' & Hr & Hp' & Ht & Hm & Hn & _).
  exists w'. split; [exact Hr|].
  unfold holds. rewrite Hp', Ht, Hm, Hn. exact (Inv_stop _ _ _ _ H).
Qed.

Lemma toggleAutoPlay_holds (w : World) :
  holds Inv w -> exists w', toggleAutoPlay w = Ok (tt, w') /\ holds Inv w'.
Proof.
  intros H. unfold toggleAutoPlay, bind, gets.
  destruct (isPlaying (this w)) eqn:Hp.
  - apply stopAutoPlay_holds, H.
  - destruct (startAutoPlay_returns w) as (w' & Hr & Hp' & Ht & Hm & Hn & _).
    exists w'. split; [exact Hr|].
    unfold holds in *. rewrite Hp', Ht, Hm, Hn. rewrite Hp in H.
    exact (Inv_start _ _ _ _ H).
Qed.

Lemma dispatch_holds (e : Event) (w : World) :
  holds Inv w -> exists w', dispatch e w = Ok (tt, w') /\ holds Inv w'.
Proof.
  intros H. destruct e as [ | | | i | key | x | x | h | dt]; simpl.
  - apply previousSlide_holds, H.
  - apply nextSlide_holds, H.
  - apply toggleAutoPlay_holds, H.
  - unfold bind, gets. destruct (Z.of_nat i <? totalSlides (this w)).
    + apply goToSlide_holds, H.
    + exists w. split; [reflexivity | exact H].
  - unfold onKeyDown.
    destruct (String.eqb key "ArrowLeft"); [apply previousSlide_holds, H|].
    destruct (String.eqb key "ArrowRight"); [apply nextSlide_holds, H|].
    exists w. split; [reflexivity | exact H].
  - eexists. split; [reflexivity | exact H].
  - unfold onTouchEnd, bind, modify, get.
    match goal with
    | |- context [Z.abs ?diff >? swipeThreshold] =>
        destruct (Z.abs diff >? swipeThreshold); [destruct (diff >? 0)|]
    end.
    + apply nextSlide_holds, H.
    + apply previousSlide_holds, H.
    + eexists. split; [reflexivity | exact H].
  - unfold onInterval, bind, get, modify.
    destruct (intervals (window w) !! h) as [iv|] eqn:E.
    + apply nextSlide_holds. unfold holds. simpl.
      apply Inv_rearm; [exact H | rewrite E; eauto].
    + exists w. split; [reflexivity | exact H].
  - eexists. split; [reflexivity | exact H].
Qed.

Lemma run_holds (es : list Event) (w : World) :
  holds Inv w -> exists w', run es w = Ok (tt, w') /\ holds Inv w'.
Proof.
  revert w. induction es as [|e es IH]; intros w H.
  - exists w. split; [reflexivity | exact H].
  - destruct (dispatch_holds e w H) as (w1 & Hr & H1).
    destruct (IH w1 H1) as (w' & Hr' & H').
    exists w'. split; [|exact H'].
    unfold run in *. simpl map. rewrite (sequence_cons _ _ _ _ Hr). exact Hr'.
Qed.

End Invariant.

(** The timer discipline survives every event. *)
Lemma run_disciplined (es : list Event) (w : World) :
  disciplined w ->
  exists w', run es w = Ok (tt, w') /\ disciplined w'.
Proof.
  apply (run_holds discipline).
  - intros t m nh iv D. eapply discipline_reset, D.
  - intros t p m nh D. eapply discipline_stop, D.
  - intros t m nh iv D. eapply discipline_start; [exact D | reflexivity].
  - intros t p m nh h iv D Hh. eapply discipline_rearm; [exact D | exact Hh].
Qed.

(** Handles stay allocated under every event, and under direct calls of
    the methods that are public in one variant of the class. *)
Lemma dispatch_allocated (e : Event) (w : World) :
  allocated w ->
  exists w', dispatch e w = Ok (tt, w') /\ allocated w'.
Proof.
  apply (dispatch_holds (fun t _ m nh => alloc t m nh)).
  - intros t m nh iv A. apply alloc_reset, A.
  - intros t _ m nh A. eapply alloc_stop, A.
  - intros t m nh iv A. eapply alloc_start, A.
  - intros t _ m nh h iv A Hh. eapply alloc_rearm; [exact A | exact Hh].
Qed.

Lemma startAutoPlay_allocated (w : World) :
  allocated w ->
  exists w', startAutoPlay w = Ok (tt, w') /\ allocated w'.
Proof.
  intros A.
  destruct (startAutoPlay_returns w) as (w' & Hr & _ & Ht & Hm & Hn & _).
  exists w'. split; [exact Hr|].
  unfold allocated. rewrite Ht, Hm, Hn. eapply alloc_start, A.
Qed.

Lemma stopAutoPlay_allocated (w : World) :
  allocated w ->
  exists w', stopAutoPlay w = Ok (tt, w') /\ allocated w'.
Proof.
  intros A.
  destruct (stopAutoPlay_returns w) as (w' & Hr & _ & Ht & Hm & Hn & _).
  exists w'. split; [exact Hr|].
  unfold allocated. rewrite Ht, Hm, Hn. eapply alloc_stop, A.
Qed.

(** ** Construction *)

Lemma getElements_ok (selectors : list string) (p : Page) :
  getElements selectors p = Ok tt <->
  Forall (fun s => s ∈ present p) selectors.
Proof.
  induction selectors as [|s rest IH]; simpl.
  - split; [constructor | reflexivity].
  - unfold getElement. destruct (bool_decide_reflect (s ∈ present p)) as [Hin|Hout].
    + rewrite IH. split; [intros H; constructor; assumption|].
      intros H. inversion H; assumption.
    + split; [discriminate|]. intros H. inversion H; contradiction.
Qed.

Lemma constructor_returns (config : CarouselConfig) (p : Page) (win : Window) :
  getElements required p = Ok tt ->
  exists w, constructor config p win = Ok w /\
    this w = initialFields config p /\
    window w = win /\
    log w = [CallUpdateCarousel].
Proof.
  intros Hp. unfold constructor. rewrite Hp.
  unfold beforeInit, initialFields.
  destruct (defined_or (cfg_enableLoop config) true); exec;
    eexists; repeat split; reflexivity.
Qed.

Lemma constructor_throws (config : CarouselConfig) (p : Page) (win : Window)
    (e : string) :
  getElements required p = Throw e ->
  constructor config p win = Throw e.
Proof. intros Hp. unfold constructor. rewrite Hp. reflexivity. Qed.

Lemma constructor_disciplined (config : CarouselConfig) (p : Page)
    (win : Window) (w : World) :
  intervals win = ∅ ->
  constructor config p win = Ok w ->
  disciplined w.
Proof.
  intros Hwin Hc.
  destruct (getElements required p) as [[]|e] eqn:Hp.
  - destruct (constructor_returns config p win Hp) as (w' & Hr & Ht & Hw & _).
    rewrite Hr in Hc. injection Hc as <-.
    unfold disciplined. rewrite Ht, Hw, Hwin. simpl. repeat split.
    + intros h [x Hx]. rewrite lookup_empty in Hx. discriminate.
    + discriminate.
  - rewrite (constructor_throws _ _ _ _ Hp) in Hc. discriminate.
Qed.

Lemma disciplined_allocated (w : World) : disciplined w -> allocated w.
Proof.
  intros (Hlive & _ & Hheld). split.
  - intros h iv Hh. apply Hheld, Hlive. rewrite Hh. eauto.
  - destruct (autoPlayTimer (this w)) as [h|]; simpl; [|exact I].
    apply Hheld. reflexivity.
Qed.

(** Under event-driven use, from construction on a fresh timer table, at
    most one interval is ever live, and it is the held one. *)
Lemma events_one_timer (config : CarouselConfig) (p : Page) (win : Window)
    (w0 : World) (es : list Event) :
  intervals win = ∅ ->
  constructor config p win = Ok w0 ->
  exists w, run es w0 = Ok (tt, w) /\
    (size (intervals (window w)) <= 1)%nat /\
    (forall h, is_Some (intervals (window w) !! h) ->
               autoPlayTimer (this w) = Some h).
Proof.
  intros Hwin Hc.
  destruct (run_disciplined es w0 (constructor_disciplined _ _ _ _ Hwin Hc))
    as (w & Hr & D).
  exists w. split; [exact Hr|]. split.
  - eapply discipline_size, D.
  - apply D.
Qed.

(** [startAutoPlay] does not cancel: on a world that holds a live
    interval, the old interval stays live next to the new one and is no
    longer referenced by the object. *)
Lemma startAutoPlay_keeps_held_interval (w : World) (h : nat) :
  allocated w ->
  autoPlayTimer (this w) = Some h ->
  is_Some (intervals (window w) !! h) ->
  exists w', startAutoPlay w = Ok (tt, w') /\
    is_Some (intervals (window w') !! h) /\
    autoPlayTimer (this w') <> Some h /\
    size (intervals (window w')) = S (size (intervals (window w))).
Proof.
  intros [Hlive Hheld] Ht Hh.
  destruct (startAutoPlay_returns w) as (w' & Hr & _ & Ht' & Hm & _).
  rewrite Ht in Hheld. simpl in Hheld.
  assert (Hfresh : intervals (window w) !! nextHandle (window w) = None).
  { destruct (intervals (window w) !! nextHandle (window w)) as [iv|] eqn:E;
      [|reflexivity].
    specialize (Hlive _ iv E). simpl in Hlive. lia. }
  exists w'. split; [exact Hr|]. rewrite Hm, Ht'. repeat split.
  - rewrite lookup_insert_ne by lia. exact Hh.
  - intros [= E]. lia.
  - apply map_size_insert_None, Hfresh.
Qed.

Lemma constructor_inv (config : CarouselConfig) (p : Page) (win : Window)
    (w : World) :
  constructor config p win = Ok w ->
  this w = initialFields config p /\ window w = win /\
  log w = [CallUpdateCarousel].
Proof.
  intros Hc. destruct (getElements required p) as [[]|e] eqn:Hp.
  - destruct (constructor_returns config p win Hp) as (w' & Hr & H).
    rewrite Hr in Hc. injection Hc as <-. exact H.
  - rewrite (constructor_throws _ _ _ _ Hp) in Hc. discriminate.
Qed.

Lemma index_changing_renders (w : World) (op : M unit) :
  index_changing w op ->
  exists k, op w = updateCarousel (set_this (with_currentIndex k) w).
Proof.
  intros [ | | k Hk].
  - eexists. apply nextSlide_unfold.
  - eexists. apply previousSlide_unfold.
  - exists k. apply goToSlide_unfold, Hk.
Qed.

(** ** The page script, run

    Autoplay at 4000 ms on four slides with looping: one tick shows slide
    1, four ticks come back to slide 0, and each tick re-arms the timer
    under a new handle. *)
Example autoplay_one_tick :
  currentIndex (this (after (run [PlayPauseClick; TimePasses 4000;
                                  IntervalFires 1]) (loaded 4))) = 1.
Proof. reflexivity. Qed.

Example autoplay_four_ticks :
  let w := after (run [PlayPauseClick;
                       TimePasses 4000; IntervalFires 1;
                       TimePasses 4000; IntervalFires 2;
                       TimePasses 4000; IntervalFires 3;
                       TimePasses 4000; IntervalFires 4]) (loaded 4) in
  currentIndex (this w) = 0 /\ autoPlayTimer (this w) = Some 5%nat /\
  indicators (dom w) = [true; false; false; false].
Proof. vm_compute. repeat split; reflexivity. Qed.

Example missing_element_aborts :
  constructor pageConfig
    {| present := ["#carouselTrack"; "#prevBtn"]%string; slideCount := 2;
       dom0 := blankDom |} freshWindow
  = Throw "Élément #nextBtn introuvable"%string.
Proof. reflexivity. Qed.

(** * The properties *)

(** C1. For every slide count N >= 1 and every start index in [0, N-1],
    any finite sequence of [nextSlide] and [previousSlide] calls, with
    looping enabled or disabled, runs to completion and leaves
    [currentIndex] within [0, N-1]; the slide count does not change. As the
    sequence is arbitrary, this holds after each of its calls. *)
Theorem navigation_keeps_index_in_range (ops : list Nav) (w : World) :
  1 <= totalSlides (this w) ->
  0 <= currentIndex (this w) <= totalSlides (this w) - 1 ->
  exists w', sequence_ (map navigate ops) w = Ok (tt, w') /\
    totalSlides (this w') = totalSlides (this w) /\
    0 <= currentIndex (this w') <= totalSlides (this w') - 1.
Proof.
  intros _. revert w. induction ops as [|op ops IH]; intros w Hin.
  - exists w. split; [reflexivity|]. split; [reflexivity | exact Hin].
  - assert (Hr : in_range (this w)) by (unfold in_range; lia).
    destruct (navigate_in_range op w Hr) as (w1 & Hstep & Hr1 & Hn1).
    assert (Hin1 : 0 <= currentIndex (this w1) <= totalSlides (this w1) - 1)
      by (unfold in_range in Hr1; lia).
    destruct (IH w1 Hin1) as (w' & Hrun & Hn & Hin').
    exists w'. split; [|split].
    + simpl map. rewrite (sequence_cons _ _ _ _ Hstep). exact Hrun.
    + congruence.
    + exact Hin'.
Qed.

Lemma navigation_keeps_index_in_range_witness :
  1 <= totalSlides (this (loaded 3)) /\
  0 <= currentIndex (this (loaded 3)) <= totalSlides (this (loaded 3)) - 1 /\
  exists w',
    sequence_ (map navigate [Prev; Next; Next; Next; Next; Prev]) (loaded 3)
      = Ok (tt, w') /\
    totalSlides (this w') = totalSlides (this (loaded 3)) /\
    0 <= currentIndex (this w') <= totalSlides (this w') - 1.
Proof.
  assert (H1 : 1 <= totalSlides (this (loaded 3))) by (vm_compute; discriminate).
  assert (H2 : 0 <= currentIndex (this (loaded 3))
               <= totalSlides (this (loaded 3)) - 1)
    by (vm_compute; split; discriminate).
  split; [exact H1|]. split; [exact H2|].
  exact (navigation_keeps_index_in_range
           [Prev; Next; Next; Next; Next; Prev] (loaded 3) H1 H2).
Defined.

(** C3. [nextSlide] returns, and: if [currentIndex < totalSlides - 1] the
    index is incremented by 1; otherwise, if looping is enabled, it becomes
    0; otherwise it is unchanged. No other engine field changes. In
    particular with 3 slides at index 2: index 0 with looping enabled, and
    with looping disabled the index stays 2. *)
Theorem nextSlide_index (w : World) :
  exists w', nextSlide w = Ok (tt, w') /\
    (currentIndex (this w) < totalSlides (this w) - 1 ->
       currentIndex (this w') = currentIndex (this w) + 1) /\
    (~ currentIndex (this w) < totalSlides (this w) - 1 ->
       enableLoop (this w) = true -> currentIndex (this w') = 0) /\
    (~ currentIndex (this w) < totalSlides (this w) - 1 ->
       enableLoop (this w) = false ->
       currentIndex (this w') = currentIndex (this w)) /\
    (totalSlides (this w) = 3 -> currentIndex (this w) = 2 ->
       currentIndex (this w') = if enableLoop (this w) then 0 else 2) /\
    totalSlides (this w') = totalSlides (this w) /\
    autoPlayInterval (this w') = autoPlayInterval (this w) /\
    isPlaying (this w') = isPlaying (this w) /\
    enableLoop (this w') = enableLoop (this w).
Proof.
  destruct (nextSlide_returns w) as (w' & Hr & Hi & Hrest).
  exists w'. split; [exact Hr|]. rewrite Hi. unfold next_index.
  repeat split; try apply Hrest.
  - intros H. apply Z.ltb_lt in H. rewrite H. reflexivity.
  - intros H Hl. apply Z.nlt_ge, Z.ltb_ge in H. rewrite H, Hl. reflexivity.
  - intros H Hl. apply Z.nlt_ge, Z.ltb_ge in H. rewrite H, Hl. reflexivity.
  - intros -> ->. reflexivity.
Qed.

Lemma nextSlide_index_witness :
  (exists w', nextSlide (atLastOfThree true) = Ok (tt, w') /\
              currentIndex (this w') = 0) /\
  (exists w', nextSlide (atLastOfThree false) = Ok (tt, w') /\
              currentIndex (this w') = 2).
Proof.
  split.
  - destruct (nextSlide_index (atLastOfThree true))
      as (w' & Hr & _ & _ & _ & H3 & _).
    exists w'. split; [exact Hr|]. exact (H3 eq_refl eq_refl).
  - destruct (nextSlide_index (atLastOfThree false))
      as (w' & Hr & _ & _ & _ & H3 & _).
    exists w'. split; [exact Hr|]. exact (H3 eq_refl eq_refl).
Defined.

(** C4. [previousSlide] returns, and: if [currentIndex > 0] the index is
    decremented by 1; otherwise, if looping is enabled, it becomes
    [totalSlides - 1]; otherwise it is unchanged. No other engine field
    changes. In particular with 3 slides at index 0: index 2 with looping
    enabled, and with looping disabled the index stays 0. *)
Theorem previousSlide_index (w : World) :
  exists w', previousSlide w = Ok (tt, w') /\
    (currentIndex (this w) > 0 ->
       currentIndex (this w') = currentIndex (this w) - 1) /\
    (~ currentIndex (this w) > 0 ->
       enableLoop (this w) = true ->
       currentIndex (this w') = totalSlides (this w) - 1) /\
    (~ currentIndex (this w) > 0 ->
       enableLoop (this w) = false ->
       currentIndex (this w') = currentIndex (this w)) /\
    (totalSlides (this w) = 3 -> currentIndex (this w) = 0 ->
       currentIndex (this w') = if enableLoop (this w) then 2 else 0) /\
    totalSlides (this w') = totalSlides (this w) /\
    autoPlayInterval (this w') = autoPlayInterval (this w) /\
    isPlaying (this w') = isPlaying (this w) /\
    enableLoop (this w') = enableLoop (this w).
Proof.
  destruct (previousSlide_returns w) as (w' & Hr & Hi & Hrest).
  exists w'. split; [exact Hr|]. rewrite Hi. unfold previous_index.
  repeat split; try apply Hrest.
  - intros H. destruct (Z.gtb_spec (currentIndex (this w)) 0); [reflexivity|lia].
  - intros H Hl. rewrite Hl.
    destruct (Z.gtb_spec (currentIndex (this w)) 0); [lia|reflexivity].
  - intros H Hl. rewrite Hl.
    destruct (Z.gtb_spec (currentIndex (this w)) 0); [lia|reflexivity].
  - intros -> ->. reflexivity.
Qed.

Lemma previousSlide_index_witness :
  (exists w', previousSlide (atFirstOfThree true) = Ok (tt, w') /\
              currentIndex (this w') = 2) /\
  (exists w', previousSlide (atFirstOfThree false) = Ok (tt, w') /\
              currentIndex (this w') = 0).
Proof.
  split.
  - destruct (previousSlide_index (atFirstOfThree true))
      as (w' & Hr & _ & _ & _ & H3 & _).
    exists w'. split; [exact Hr|]. exact (H3 eq_refl eq_refl).
  - destruct (previousSlide_index (atFirstOfThree false))
      as (w' & Hr & _ & _ & _ & H3 & _).
    exists w'. split; [exact Hr|]. exact (H3 eq_refl eq_refl).
Defined.

(** C5. For every index k: when [0 <= k < totalSlides], [goToSlide k]
    returns with [currentIndex = k], the other engine fields unchanged and
    one render pass logged; when k is outside that range the call returns
    normally and the whole world is unchanged: no exception, no field, page
    or timer change, and no render pass. *)
Theorem goToSlide_sets_or_ignores (w : World) (k : Z) :
  (0 <= k < totalSlides (this w) ->
     exists w' calls,
       goToSlide k w = Ok (tt, w') /\
       currentIndex (this w') = k /\
       totalSlides (this w') = totalSlides (this w) /\
       autoPlayInterval (this w') = autoPlayInterval (this w) /\
       isPlaying (this w') = isPlaying (this w) /\
       enableLoop (this w') = enableLoop (this w) /\
       log w' = calls ++ CallUpdateCarousel :: log w) /\
  (~ (0 <= k < totalSlides (this w)) -> goToSlide k w = Ok (tt, w)).
Proof.
  split.
  - apply goToSlide_in_range.
  - apply goToSlide_out_of_range.
Qed.

Lemma goToSlide_sets_or_ignores_witness :
  (exists w', goToSlide 2 (loaded 3) = Ok (tt, w') /\
              currentIndex (this w') = 2) /\
  goToSlide 3 (loaded 3) = Ok (tt, loaded 3) /\
  goToSlide (-1) (loaded 3) = Ok (tt, loaded 3).
Proof.
  assert (Hin : 0 <= 2 < totalSlides (this (loaded 3)))
    by (vm_compute; split; [discriminate | reflexivity]).
  assert (Hhigh : ~ (0 <= 3 < totalSlides (this (loaded 3))))
    by (vm_compute; intros [_ H]; discriminate H).
  assert (Hlow : ~ (0 <= -1 < totalSlides (this (loaded 3))))
    by (vm_compute; intros [H _]; apply H; reflexivity).
  split; [|split].
  - destruct (proj1 (goToSlide_sets_or_ignores (loaded 3) 2) Hin)
      as (w' & calls & Hr & Hi & _).
    exists w'. split; [exact Hr | exact Hi].
  - exact (proj2 (goToSlide_sets_or_ignores (loaded 3) 3) Hhigh).
  - exact (proj2 (goToSlide_sets_or_ignores (loaded 3) (-1)) Hlow).
Defined.

(** C6. Whenever [isPlaying] is true, every index-changing operation
    ([nextSlide], [previousSlide], [goToSlide] with an index in range)
    returns and resets the autoplay timer: the handle held before is no
    longer live, and the object holds a new handle, different from the old
    one and not live before, whose interval has period [autoPlayInterval]
    and is armed at the clock reading of the call, which the call does not
    advance. Intervals that are neither the old nor the new one are
    untouched. *)
Theorem navigation_while_playing_retimes (w : World) (op : M unit) :
  isPlaying (this w) = true ->
  allocated w ->
  index_changing w op ->
  exists w' h',
    op w = Ok (tt, w') /\
    (forall h, autoPlayTimer (this w) = Some h ->
               intervals (window w') !! h = None) /\
    autoPlayTimer (this w') = Some h' /\
    autoPlayTimer (this w) <> Some h' /\
    intervals (window w) !! h' = None /\
    intervals (window w') !! h' =
      Some {| delay := autoPlayInterval (this w');
              armedAt := clock (window w') |} /\
    clock (window w') = clock (window w) /\
    (forall h, autoPlayTimer (this w) <> Some h -> h <> h' ->
               intervals (window w') !! h = intervals (window w) !! h).
Proof.
  intros Hp Ha Hop.
  destruct (index_changing_renders w op Hop) as (k & ->).
  destruct (updateCarousel_playing (set_this (with_currentIndex k) w) Hp)
    as (w' & Hr & Hret & Hsame).
  destruct (retimed_observed _ w' Ha Hret)
    as (Hold & (h' & Ht' & Hne & Hfresh & Hnew) & Hother).
  destruct Hsame as (_ & _ & Hms & _).
  destruct Hret as (_ & _ & _ & Hclock).
  exists w', h'. split; [exact Hr|]. repeat split.
  - exact Hold.
  - exact Ht'.
  - exact Hne.
  - exact Hfresh.
  - rewrite Hms. exact Hnew.
  - exact Hclock.
  - intros h Hh Hh'. apply Hother; [exact Hh|].
    rewrite Ht'. intros [= E]. apply Hh'. symmetry. exact E.
Qed.

Lemma navigation_while_playing_retimes_witness :
  isPlaying (this playing4) = true /\
  allocated playing4 /\
  exists w' h',
    nextSlide playing4 = Ok (tt, w') /\
    autoPlayTimer (this playing4) = Some 1%nat /\
    intervals (window w') !! 1%nat = None /\
    autoPlayTimer (this w') = Some h' /\
    intervals (window w') !! h' =
      Some {| delay := autoPlayInterval (this w');
              armedAt := clock (window w') |}.
Proof.
  assert (Hp : isPlaying (this playing4) = true) by reflexivity.
  assert (Ha : allocated playing4).
  { split.
    - apply (bool_decide_unpack _). vm_compute. exact I.
    - vm_compute. lia. }
  split; [exact Hp|]. split; [exact Ha|].
  destruct (navigation_while_playing_retimes playing4 nextSlide Hp Ha
              (change_next playing4))
    as (w' & h' & Hr & Hold & Ht' & _ & _ & Hnew & _).
  exists w', h'. split; [exact Hr|]. split; [reflexivity|].
  split; [apply Hold; reflexivity|]. split; [exact Ht' | exact Hnew].
Defined.

(** C7. [stopAutoPlay] returns in every state; afterwards [isPlaying] is
    false, no handle is held and the handle held before is not live; a
    second call in a row returns as well and leaves the world exactly as
    the first call left it. *)
Theorem stopAutoPlay_idempotent (w : World) :
  exists w1,
    stopAutoPlay w = Ok (tt, w1) /\
    isPlaying (this w1) = false /\
    autoPlayTimer (this w1) = None /\
    (forall h, autoPlayTimer (this w) = Some h ->
               intervals (window w1) !! h = None) /\
    stopAutoPlay w1 = Ok (tt, w1).
Proof.
  destruct (stopAutoPlay_returns w)
    as (w1 & Hr & Hp & Ht & Hm & _ & _ & _ & Hagain).
  exists w1. split; [exact Hr|]. split; [exact Hp|]. split; [exact Ht|].
  split; [|exact Hagain].
  intros h Hh. rewrite Hm, Hh. simpl. apply lookup_delete_eq.
Qed.

Lemma stopAutoPlay_idempotent_witness :
  exists w1,
    stopAutoPlay playing4 = Ok (tt, w1) /\
    autoPlayTimer (this playing4) = Some 1%nat /\
    intervals (window w1) !! 1%nat = None /\
    isPlaying (this w1) = false /\
    stopAutoPlay w1 = Ok (tt, w1).
Proof.
  destruct (stopAutoPlay_idempotent playing4)
    as (w1 & Hr & Hp & _ & Hold & Hagain).
  exists w1. split; [exact Hr|]. split; [reflexivity|].
  split; [apply Hold; reflexivity|]. split; [exact Hp | exact Hagain].
Defined.

(** C8. For every configuration, on a page that has the required
    elements, construction succeeds; [autoPlayInterval] is 3000 when the
    option is absent and [enableLoop] is true when the option is absent;
    and whatever [enableAutoPlay] is, the carousel is not playing: the
    flag is false, no handle is held, the timer table is the one
    construction started with and no [setInterval] call was made. *)
Theorem constructor_defaults_and_paused (config : CarouselConfig) (p : Page)
    (win : Window) :
  Forall (fun s => s ∈ present p) required ->
  exists w,
    constructor config p win = Ok w /\
    (cfg_autoPlayInterval config = None ->
       autoPlayInterval (this w) = 3000) /\
    (cfg_enableLoop config = None -> enableLoop (this w) = true) /\
    isPlaying (this w) = false /\
    autoPlayTimer (this w) = None /\
    window w = win /\
    (forall h ms, CallSetInterval h ms ∉ log w).
Proof.
  intros Hp. apply getElements_ok in Hp.
  destruct (constructor_returns config p win Hp) as (w & Hr & Ht & Hw & Hl).
  exists w. split; [exact Hr|]. rewrite Ht, Hl. simpl. repeat split.
  - intros ->. reflexivity.
  - intros ->. reflexivity.
  - exact Hw.
  - intros h ms Hin. apply list_elem_of_singleton in Hin. discriminate.
Qed.

Lemma constructor_defaults_and_paused_witness :
  Forall (fun s => s ∈ present (pageWith 3)) required /\
  exists w,
    constructor autoPlayOnly (pageWith 3) freshWindow = Ok w /\
    autoPlayInterval (this w) = 3000 /\
    enableLoop (this w) = true /\
    isPlaying (this w) = false /\
    autoPlayTimer (this w) = None /\
    window w = freshWindow.
Proof.
  assert (Hp : Forall (fun s => s ∈ present (pageWith 3)) required).
  { apply (bool_decide_unpack _). vm_compute. exact I. }
  split; [exact Hp|].
  destruct (constructor_defaults_and_paused autoPlayOnly (pageWith 3)
              freshWindow Hp)
    as (w & Hr & Hms & Hloop & Hplay & Ht & Hw & _).
  exists w. split; [exact Hr|]. split; [exact (Hms eq_refl)|].
  split; [exact (Hloop eq_refl)|]. split; [exact Hplay|].
  split; [exact Ht | exact Hw].
Defined.

(** C9. The constructor's default for [autoPlayInterval] applies to every
    falsy value: with the option absent, [0] or [NaN] the field is 3000;
    any non-zero number is stored as given, so a negative option gives a
    negative field and [autoPlayInterval > 0] does not hold for it. *)
Theorem constructor_interval_default_on_falsy (config : CarouselConfig)
    (p : Page) (win : Window) :
  Forall (fun s => s ∈ present p) required ->
  exists w,
    constructor config p win = Ok w /\
    (cfg_autoPlayInterval config = None ->
       autoPlayInterval (this w) = 3000) /\
    (cfg_autoPlayInterval config = Some (Num 0) ->
       autoPlayInterval (this w) = 3000) /\
    (cfg_autoPlayInterval config = Some NaN ->
       autoPlayInterval (this w) = 3000) /\
    (forall z, z <> 0 -> cfg_autoPlayInterval config = Some (Num z) ->
               autoPlayInterval (this w) = z) /\
    (forall z, z < 0 -> cfg_autoPlayInterval config = Some (Num z) ->
               ~ autoPlayInterval (this w) > 0).
Proof.
  intros Hp. apply getElements_ok in Hp.
  destruct (constructor_returns config p win Hp) as (w & Hr & Ht & _).
  exists w. split; [exact Hr|]. rewrite Ht. simpl.
  assert (Hnz : forall z, z <> 0 ->
            cfg_autoPlayInterval config = Some (Num z) ->
            or_number (cfg_autoPlayInterval config) 3000 = z).
  { intros z Hz ->. simpl. destruct (Z.eqb_spec z 0); [contradiction|].
    reflexivity. }
  repeat split.
  - intros ->. reflexivity.
  - intros ->. reflexivity.
  - intros ->. reflexivity.
  - exact Hnz.
  - intros z Hz Hc. rewrite (Hnz z) by (assumption || lia). lia.
Qed.

Lemma constructor_interval_default_on_falsy_witness :
  Forall (fun s => s ∈ present (pageWith 3)) required /\
  (exists w,
     constructor (intervalOnly (Num 0)) (pageWith 3) freshWindow = Ok w /\
     autoPlayInterval (this w) = 3000) /\
  (exists w,
     constructor (intervalOnly NaN) (pageWith 3) freshWindow = Ok w /\
     autoPlayInterval (this w) = 3000) /\
  (exists w,
     constructor (intervalOnly (Num (-5))) (pageWith 3) freshWindow
       = Ok w /\
     autoPlayInterval (this w) = -5 /\
     ~ autoPlayInterval (this w) > 0).
Proof.
  assert (Hp : Forall (fun s => s ∈ present (pageWith 3)) required).
  { apply (bool_decide_unpack _). vm_compute. exact I. }
  split; [exact Hp|]. split; [|split].
  - destruct (constructor_interval_default_on_falsy
                (intervalOnly (Num 0)) (pageWith 3) freshWindow Hp)
      as (w & Hr & _ & H0 & _).
    exists w. split; [exact Hr | exact (H0 eq_refl)].
  - destruct (constructor_interval_default_on_falsy
                (intervalOnly NaN) (pageWith 3) freshWindow Hp)
      as (w & Hr & _ & _ & HNaN & _).
    exists w. split; [exact Hr | exact (HNaN eq_refl)].
  - destruct (constructor_interval_default_on_falsy
                (intervalOnly (Num (-5))) (pageWith 3) freshWindow Hp)
      as (w & Hr & _ & _ & _ & Hnz & Hneg).
    exists w. split; [exact Hr|]. split.
    + apply Hnz; [discriminate | reflexivity].
    + apply (Hneg (-5)); [reflexivity | reflexivity].
Defined.

(** C10. With no slide and looping enabled, [previousSlide] on the state
    construction leaves sets [currentIndex] to -1, which is
    [totalSlides - 1] and lies outside [0 <= currentIndex < totalSlides];
    [nextSlide] then sets it back to 0. *)
Theorem zero_slides_previous_then_next (config : CarouselConfig) (p : Page)
    (win : Window) (w0 : World) :
  constructor config p win = Ok w0 ->
  slideCount p = 0%nat ->
  enableLoop (this w0) = true ->
  exists w1 w2,
    currentIndex (this w0) = 0 /\
    previousSlide w0 = Ok (tt, w1) /\
    currentIndex (this w1) = -1 /\
    currentIndex (this w1) = totalSlides (this w1) - 1 /\
    ~ (0 <= currentIndex (this w1) < totalSlides (this w1)) /\
    nextSlide w1 = Ok (tt, w2) /\
    currentIndex (this w2) = 0.
Proof.
  intros Hc Hn Hloop.
  destruct (constructor_inv _ _ _ _ Hc) as (Ht & _).
  assert (Hi0 : currentIndex (this w0) = 0) by (rewrite Ht; reflexivity).
  assert (HN0 : totalSlides (this w0) = 0)
    by (rewrite Ht; simpl; rewrite Hn; reflexivity).
  destruct (previousSlide_returns w0) as (w1 & Hr1 & Hi1 & HN1 & _ & _ & Hl1).
  destruct (nextSlide_returns w1) as (w2 & Hr2 & Hi2 & _).
  assert (Hm1 : currentIndex (this w1) = -1).
  { rewrite Hi1. unfold previous_index. rewrite Hi0, Hloop, HN0. reflexivity. }
  exists w1, w2. split; [exact Hi0|]. split; [exact Hr1|].
  split; [exact Hm1|]. split; [lia|]. split; [lia|]. split; [exact Hr2|].
  rewrite Hi2. unfold next_index. rewrite Hm1, HN1, HN0, Hl1, Hloop.
  reflexivity.
Qed.

Lemma zero_slides_previous_then_next_witness :
  constructor pageConfig (pageWith 0) freshWindow = Ok (loaded 0) /\
  slideCount (pageWith 0) = 0%nat /\
  enableLoop (this (loaded 0)) = true /\
  exists w1 w2,
    previousSlide (loaded 0) = Ok (tt, w1) /\
    currentIndex (this w1) = -1 /\
    nextSlide w1 = Ok (tt, w2) /\
    currentIndex (this w2) = 0.
Proof.
  assert (Hc : constructor pageConfig (pageWith 0) freshWindow
               = Ok (loaded 0)) by reflexivity.
  split; [exact Hc|]. split; [reflexivity|]. split; [reflexivity|].
  destruct (zero_slides_previous_then_next pageConfig (pageWith 0)
              freshWindow (loaded 0) Hc eq_refl eq_refl)
    as (w1 & w2 & _ & Hr1 & Hi1 & _ & _ & Hr2 & Hi2).
  exists w1, w2. split; [exact Hr1|]. split; [exact Hi1|].
  split; [exact Hr2 | exact Hi2].
Defined.

(** C2, where the code departs from it. [startAutoPlay] schedules without
    cancelling: called twice in a row on a freshly constructed four-slide
    carousel it leaves two live intervals, of which the object holds only
    the second. [stopAutoPlay] then cancels that one alone; the first stays
    live, and when it fires the slide advances although [isPlaying] is
    false. *)
Theorem startAutoPlay_twice_leaks_interval :
  exists w2 w3 w4,
    (startAutoPlay ;; startAutoPlay) (loaded 4) = Ok (tt, w2) /\
    size (intervals (window w2)) = 2%nat /\
    autoPlayTimer (this w2) = Some 2%nat /\
    is_Some (intervals (window w2) !! 1%nat) /\
    is_Some (intervals (window w2) !! 2%nat) /\
    stopAutoPlay w2 = Ok (tt, w3) /\
    isPlaying (this w3) = false /\
    autoPlayTimer (this w3) = None /\
    is_Some (intervals (window w3) !! 1%nat) /\
    currentIndex (this w3) = 0 /\
    dispatch (IntervalFires 1) w3 = Ok (tt, w4) /\
    currentIndex (this w4) = 1.
Proof.
  do 3 eexists.
  split; [vm_compute; reflexivity|].
  split; [vm_compute; reflexivity|].
  split; [reflexivity|].
  split; [vm_compute; eauto|].
  split; [vm_compute; eauto|].
  split; [vm_compute; reflexivity|].
  split; [reflexivity|].
  split; [reflexivity|].
  split; [vm_compute; eauto|].
  split; [reflexivity|].
  split; [vm_compute; reflexivity|].
  reflexivity.
Qed.

(** * Further properties of the class *)

(** ** The methods as functions on worlds *)

Lemma updateCarousel_total (w : World) :
  updateCarousel w = Ok (tt, after updateCarousel w).
Proof.
  open_world w. unfold after. destruct playing, loop, t; exec; reflexivity.
Qed.

Lemma startAutoPlay_total (w : World) :
  startAutoPlay w = Ok (tt, after startAutoPlay w).
Proof. open_world w. unfold after. exec. reflexivity. Qed.

Lemma stopAutoPlay_total (w : World) :
  stopAutoPlay w = Ok (tt, after stopAutoPlay w).
Proof. open_world w. unfold after. destruct t; exec; reflexivity. Qed.

Lemma nextSlide_total (w : World) :
  nextSlide w =
  Ok (tt, after updateCarousel
            (set_this (with_currentIndex (next_index (this w))) w)).
Proof. rewrite nextSlide_unfold. apply updateCarousel_total. Qed.

Lemma previousSlide_total (w : World) :
  previousSlide w =
  Ok (tt, after updateCarousel
            (set_this (with_currentIndex (previous_index (this w))) w)).
Proof. rewrite previousSlide_unfold. apply updateCarousel_total. Qed.

Lemma goToSlide_total (w : World) (k : Z) :
  0 <= k < totalSlides (this w) ->
  goToSlide k w =
  Ok (tt, after updateCarousel (set_this (with_currentIndex k) w)).
Proof.
  intros Hk. rewrite goToSlide_unfold by exact Hk. apply updateCarousel_total.
Qed.

(** ** Every listener is a sequence of steps *)

Lemma step_next (w : World) :
  step w (after updateCarousel
            (set_this (with_currentIndex (next_index (this w))) w)).
Proof. apply step_render. left. reflexivity. Qed.

Lemma step_previous (w : World) :
  step w (after updateCarousel
            (set_this (with_currentIndex (previous_index (this w))) w)).
Proof. apply step_render. right. left. reflexivity. Qed.

Lemma dispatch_steps (e : Event) (w : World) :
  exists w', dispatch e w = Ok (tt, w') /\ rtc step w w'.
Proof.
  destruct e as [ | | | i | key | x | x | h | dt]; simpl.
  - eexists. split; [apply previousSlide_total|]. apply rtc_once, step_previous.
  - eexists. split; [apply nextSlide_total|]. apply rtc_once, step_next.
  - unfold toggleAutoPlay, bind, gets. destruct (isPlaying (this w)) eqn:Hp.
    + eexists. split; [apply stopAutoPlay_total|].
      apply rtc_once, step_stop, Hp.
    + eexists. split; [apply startAutoPlay_total|].
      apply rtc_once, step_start, Hp.
  - unfold bind, gets.
    destruct (Z.ltb_spec (Z.of_nat i) (totalSlides (this w))) as [Hi|Hi].
    + assert (Hk : 0 <= Z.of_nat i < totalSlides (this w)) by lia.
      eexists. split; [apply goToSlide_total, Hk|].
      apply rtc_once, step_render. right. right. exact Hk.
    + exists w. split; [reflexivity | apply rtc_refl].
  - unfold onKeyDown. destruct (String.eqb key "ArrowLeft").
    { eexists. split; [apply previousSlide_total|].
      apply rtc_once, step_previous. }
    destruct (String.eqb key "ArrowRight").
    { eexists. split; [apply nextSlide_total|]. apply rtc_once, step_next. }
    exists w. split; [reflexivity | apply rtc_refl].
  - eexists. split; [reflexivity|].
    apply rtc_once, (step_touch w x (touchEndX w)).
  - unfold onTouchEnd, bind, modify, get.
    pose proof (step_touch w (touchStartX w) x) as Ht.
    unfold with_touch in Ht.
    match goal with
    | |- context [Z.abs ?diff >? swipeThreshold] =>
        destruct (Z.abs diff >? swipeThreshold); [destruct (diff >? 0)|]
    end.
    + eexists. split; [apply nextSlide_total|].
      eapply rtc_l; [exact Ht|]. apply rtc_once, step_next.
    + eexists. split; [apply previousSlide_total|].
      eapply rtc_l; [exact Ht|]. apply rtc_once, step_previous.
    + eexists. split; [reflexivity|]. apply rtc_once, Ht.
  - unfold onInterval, bind, get, modify.
    destruct (intervals (window w) !! h) as [iv|] eqn:E.
    + eexists. split; [apply nextSlide_total|].
      eapply rtc_l; [exact (step_rearm w h iv E)|].
      apply rtc_once, step_next.
    + exists w. split; [reflexivity | apply rtc_refl].
  - eexists. split; [reflexivity|]. apply rtc_once, (step_clock w dt).
Qed.

Lemma run_steps (es : list Event) (w : World) :
  exists w', run es w = Ok (tt, w') /\ rtc step w w'.
Proof.
  revert w. induction es as [|e es IH]; intros w.
  - exists w. split; [reflexivity | apply rtc_refl].
  - destruct (dispatch_steps e w) as (w1 & Hr & Hs).
    destruct (IH w1) as (w' & Hr' & Hs').
    exists w'. split; [|eapply rtc_trans; eassumption].
    unfold run in *. simpl map. rewrite (sequence_cons _ _ _ _ Hr). exact Hr'.
Qed.

Lemma steps_invariant (P : World -> Prop) (w w' : World) :
  (forall a b, step a b -> P a -> P b) ->
  rtc step w w' -> P w -> P w'.
Proof.
  intros Hstep Hs. induction Hs as [|a b c Hab _ IH]; [tauto|].
  intros Ha. apply IH. eapply Hstep; eassumption.
Qed.

Lemma run_invariant (P : World -> Prop) (es : list Event) (w : World) :
  (forall a b, step a b -> P a -> P b) ->
  P w -> exists w', run es w = Ok (tt, w') /\ P w'.
Proof.
  intros Hstep Hw. destruct (run_steps es w) as (w' & Hr & Hs).
  exists w'. split; [exact Hr|]. eapply steps_invariant; eassumption.
Qed.

(** ** What each step changes *)

Lemma render_engine (w : World) : same_engine w (after updateCarousel w).
Proof.
  open_world w. unfold same_engine, after.
  destruct playing, loop, t; exec; repeat split; reflexivity.
Qed.

Lemma render_page (w : World) :
  let i := currentIndex (this w) in
  let d := dom w in
  let d' := dom (after updateCarousel w) in
  trackTransform d' = ("translateX(" ++ toString (- i * 100) ++ "%)")%string /\
  indicators d' =
    imap (fun index _ => bool_decide (Z.of_nat index = i)) (indicators d) /\
  currentSlideText d' = toString (i + 1) /\
  totalSlidesText d' = totalSlidesText d /\
  prevDisabled d' =
    (if enableLoop (this w) then prevDisabled d else i =? 0) /\
  nextDisabled d' =
    (if enableLoop (this w) then nextDisabled d
     else i =? totalSlides (this w) - 1) /\
  playingClass d' = playingClass d /\
  buttonSpan d' = buttonSpan d /\
  buttonSvg d' = buttonSvg d.
Proof.
  open_world w. unfold after.
  destruct playing, loop, t; exec; repeat split; reflexivity.
Qed.

Lemma render_paused (w : World) :
  isPlaying (this w) = false ->
  this (after updateCarousel w) = this w /\
  window (after updateCarousel w) = window w /\
  log (after updateCarousel w) = CallUpdateCarousel :: log w.
Proof.
  open_world w. unfold after. simpl. intros ->.
  destruct loop; exec; repeat split; reflexivity.
Qed.

Lemma render_playing (w : World) :
  isPlaying (this w) = true -> retimed w (after updateCarousel w).
Proof.
  intros Hp. destruct (updateCarousel_playing w Hp) as (w' & Hr & H & _).
  unfold after. rewrite Hr. exact H.
Qed.

Lemma render_touch (w : World) :
  touchStartX (after updateCarousel w) = touchStartX w /\
  touchEndX (after updateCarousel w) = touchEndX w.
Proof.
  open_world w. unfold after.
  destruct playing, loop, t; exec; repeat split; reflexivity.
Qed.

Lemma start_world (w : World) :
  let w' := after startAutoPlay w in
  this w' = with_autoPlayTimer (Some (nextHandle (window w)))
              (with_isPlaying true (this w)) /\
  dom w' = with_button true "Pause" PauseBars (dom w) /\
  intervals (window w') =
    <[nextHandle (window w) :=
        {| delay := autoPlayInterval (this w);
           armedAt := clock (window w) |}]> (intervals (window w)) /\
  nextHandle (window w') = S (nextHandle (window w)) /\
  clock (window w') = clock (window w).
Proof.
  open_world w. destruct win as [now m nh]. unfold after. exec.
  repeat split; reflexivity.
Qed.

Lemma stop_world (w : World) :
  let w' := after stopAutoPlay w in
  this w' = with_autoPlayTimer None (with_isPlaying false (this w)) /\
  dom w' = with_button false "Lecture automatique" PlayTriangle (dom w) /\
  intervals (window w') =
    cancel (autoPlayTimer (this w)) (intervals (window w)) /\
  nextHandle (window w') = nextHandle (window w) /\
  clock (window w') = clock (window w).
Proof.
  open_world w. destruct win as [now m nh]. unfold after.
  destruct t; exec; repeat split; reflexivity.
Qed.

(** The engine fields no step assigns. *)
Lemma step_configuration (a b : World) :
  step a b ->
  totalSlides (this b) = totalSlides (this a) /\
  autoPlayInterval (this b) = autoPlayInterval (this a) /\
  enableLoop (this b) = enableLoop (this a).
Proof.
  intros [w k _ | w _ | w _ | w sx ex | w dt | w h iv _].
  - destruct (render_engine (set_this (with_currentIndex k) w))
      as (_ & HN & Hms & _ & Hl).
    repeat split; assumption.
  - destruct (start_world w) as (-> & _). repeat split; reflexivity.
  - destruct (stop_world w) as (-> & _). repeat split; reflexivity.
  - repeat split; reflexivity.
  - repeat split; reflexivity.
  - repeat split; reflexivity.
Qed.

(** The index a step leaves: the assigned one after a render pass, the
    old one otherwise. *)
Lemma step_index (a b : World) :
  step a b ->
  currentIndex (this b) = currentIndex (this a) \/
  nav_target a (currentIndex (this b)).
Proof.
  intros [w k Hk | w _ | w _ | w sx ex | w dt | w h iv _].
  - right. destruct (render_engine (set_this (with_currentIndex k) w))
      as (-> & _). exact Hk.
  - left. destruct (start_world w) as (-> & _). reflexivity.
  - left. destruct (stop_world w) as (-> & _). reflexivity.
  - left. reflexivity.
  - left. reflexivity.
  - left. reflexivity.
Qed.

Lemma step_in_range (a b : World) :
  step a b -> in_range (this a) -> in_range (this b).
Proof.
  intros Hs Ha. destruct (step_configuration a b Hs) as (HN & _).
  unfold in_range. rewrite HN.
  destruct (step_index a b Hs) as [-> | [-> | [-> | Hk]]].
  - exact Ha.
  - apply next_index_in_range, Ha.
  - apply previous_index_in_range, Ha.
  - exact Hk.
Qed.

(** ** Invariants of event-driven use *)

(** X1. No sequence of events makes a listener throw, and none changes
    [totalSlides], [autoPlayInterval] or [enableLoop]: the three are fixed
    by the constructor. *)
Theorem events_keep_configuration (es : list Event) (w : World) :
  exists w', run es w = Ok (tt, w') /\
    totalSlides (this w') = totalSlides (this w) /\
    autoPlayInterval (this w') = autoPlayInterval (this w) /\
    enableLoop (this w') = enableLoop (this w).
Proof.
  apply (run_invariant (fun a =>
    totalSlides (this a) = totalSlides (this w) /\
    autoPlayInterval (this a) = autoPlayInterval (this w) /\
    enableLoop (this a) = enableLoop (this w))).
  - intros a b Hs (HN & Hms & Hl).
    destruct (step_configuration a b Hs) as (HN' & Hms' & Hl').
    repeat split; congruence.
  - repeat split; reflexivity.
Qed.

(** X2. From an index within [0, totalSlides - 1], every sequence of
    events (buttons, indicator clicks, keys, swipes, timer callbacks, the
    play control) leaves the index within that range. *)
Theorem events_keep_index_in_range (es : list Event) (w : World) :
  0 <= currentIndex (this w) < totalSlides (this w) ->
  exists w', run es w = Ok (tt, w') /\
    0 <= currentIndex (this w') < totalSlides (this w').
Proof.
  intros Hin. apply (run_invariant (fun a => in_range (this a))).
  - exact step_in_range.
  - exact Hin.
Qed.

Lemma events_keep_index_in_range_witness :
  0 <= currentIndex (this (loaded 3)) < totalSlides (this (loaded 3)) /\
  exists w',
    run [PlayPauseClick; IntervalFires 1; KeyDown "ArrowLeft";
         IndicatorClick 2; TouchStart 300; TouchEnd 100; NextClick]
        (loaded 3) = Ok (tt, w') /\
    0 <= currentIndex (this w') < totalSlides (this w').
Proof.
  assert (Hin : 0 <= currentIndex (this (loaded 3))
                < totalSlides (this (loaded 3)))
    by (vm_compute; split; [discriminate | reflexivity]).
  split; [exact Hin|].
  exact (events_keep_index_in_range _ (loaded 3) Hin).
Defined.

(** X3. While paused, the index-changing operations leave the timers
    alone: [nextSlide], [previousSlide] and an accepted [goToSlide] make
    one render pass, call neither [setInterval] nor [clearInterval], and
    leave the timer table, the held handle and the playing flag as they
    were. *)
Theorem navigation_while_paused_keeps_timers (w : World) (op : M unit) :
  isPlaying (this w) = false ->
  index_changing w op ->
  exists w',
    op w = Ok (tt, w') /\
    window w' = window w /\
    autoPlayTimer (this w') = autoPlayTimer (this w) /\
    isPlaying (this w') = false /\
    log w' = CallUpdateCarousel :: log w.
Proof.
  intros Hp Hop. destruct (index_changing_renders w op Hop) as (k & ->).
  rewrite updateCarousel_total. eexists. split; [reflexivity|].
  destruct (render_paused (set_this (with_currentIndex k) w) Hp)
    as (Ht & Hw & Hl).
  rewrite Ht, Hw, Hl. simpl. repeat split. exact Hp.
Qed.

Lemma navigation_while_paused_keeps_timers_witness :
  isPlaying (this (loaded 3)) = false /\
  exists w',
    goToSlide 2 (loaded 3) = Ok (tt, w') /\
    window w' = window (loaded 3) /\
    log w' = CallUpdateCarousel :: log (loaded 3).
Proof.
  assert (Hp : isPlaying (this (loaded 3)) = false) by reflexivity.
  assert (Hk : 0 <= 2 < totalSlides (this (loaded 3)))
    by (vm_compute; split; [discriminate | reflexivity]).
  split; [exact Hp|].
  destruct (navigation_while_paused_keeps_timers (loaded 3) (goToSlide 2) Hp
              (change_goTo (loaded 3) 2 Hk))
    as (w' & Hr & Hw & _ & _ & Hl).
  exists w'. split; [exact Hr|]. split; [exact Hw | exact Hl].
Defined.

(** ** The page follows the index *)

Lemma activeCount_imap (i : Z) (l : list bool) :
  activeCount (imap (fun j _ => bool_decide (Z.of_nat j = i)) l) =
  if bool_decide (0 <= i < Z.of_nat (length l)) then 1%nat else 0%nat.
Proof.
  revert i. induction l as [|x l IH]; intros i.
  - simpl. rewrite bool_decide_eq_false_2 by (simpl; lia). reflexivity.
  - rewrite imap_cons. unfold activeCount in *. rewrite filter_cons.
    assert (Hshift : imap ((fun j (_ : bool) => bool_decide (Z.of_nat j = i)) ∘ S) l
                     = imap (fun j _ => bool_decide (Z.of_nat j = i - 1)) l).
    { apply imap_ext. intros j y _. simpl. apply bool_decide_ext. lia. }
    rewrite Hshift.
    destruct (decide (bool_decide (Z.of_nat 0 = i) = true)) as [Hd|Hd];
      simpl length; rewrite IH;
      [apply bool_decide_eq_true in Hd
      |apply not_true_iff_false, bool_decide_eq_false in Hd];
      repeat case_bool_decide; simpl in *; lia.
Qed.

Lemma pointwise_imap (i : Z) (l : list bool) :
  (forall (j : nat) (b : bool),
     l !! j = Some b -> b = bool_decide (Z.of_nat j = i)) ->
  l = imap (fun j _ => bool_decide (Z.of_nat j = i)) l.
Proof.
  intros H. apply list_eq. intros j. rewrite list_lookup_imap.
  destruct (l !! j) as [b|] eqn:E; simpl; [|reflexivity].
  f_equal. apply H, E.
Qed.

Lemma synced_activeCount (w : World) :
  synced w ->
  activeCount (indicators (dom w)) =
  if bool_decide (0 <= currentIndex (this w)
                  < Z.of_nat (length (indicators (dom w))))
  then 1%nat else 0%nat.
Proof.
  intros (_ & _ & H). rewrite (pointwise_imap _ _ H) at 1.
  apply activeCount_imap.
Qed.

Lemma render_synced (w : World) : synced (after updateCarousel w).
Proof.
  destruct (render_engine w) as (Hi & _).
  destruct (render_page w) as (Htr & Hind & Hcs & _).
  unfold synced. rewrite Hi, Htr, Hind, Hcs. repeat split.
  intros j b Hj. rewrite list_lookup_imap in Hj.
  destruct (indicators (dom w) !! j); simpl in Hj; congruence.
Qed.

(** What a step does to the parts of the page that show the index. *)
Lemma step_page (a b : World) :
  step a b ->
  totalSlidesText (dom b) = totalSlidesText (dom a) /\
  length (indicators (dom b)) = length (indicators (dom a)) /\
  (synced a -> synced b).
Proof.
  intros [w k _ | w _ | w _ | w sx ex | w dt | w h iv _].
  - destruct (render_page (set_this (with_currentIndex k) w))
      as (_ & Hind & _ & Hts & _).
    split; [exact Hts|]. split; [rewrite Hind; apply length_imap|].
    intros _. apply render_synced.
  - destruct (start_world w) as (Ht & Hd & _). unfold synced.
    rewrite Ht, Hd. simpl. tauto.
  - destruct (stop_world w) as (Ht & Hd & _). unfold synced.
    rewrite Ht, Hd. simpl. tauto.
  - tauto.
  - tauto.
  - tauto.
Qed.

Lemma constructor_page (config : CarouselConfig) (p : Page) (win : Window)
    (w : World) :
  constructor config p win = Ok w ->
  synced w /\
  totalSlidesText (dom w) = toString (totalSlides (this w)) /\
  length (indicators (dom w)) =
    (length (indicators (dom0 p)) + slideCount p)%nat /\
  playingClass (dom w) = playingClass (dom0 p) /\
  buttonSpan (dom w) = buttonSpan (dom0 p) /\
  buttonSvg (dom w) = buttonSvg (dom0 p).
Proof.
  unfold constructor. destruct (getElements required p); [|discriminate].
  unfold init, bind.
  assert (E : createIndicators (beforeInit config p win) =
              Ok (tt, set_dom (fun d => with_indicators
                        (indicators d ++ replicate (slideCount p) false) d)
                        (beforeInit config p win))).
  { unfold createIndicators, bind, gets, modify. simpl.
    rewrite Nat2Z.id. reflexivity. }
  rewrite E. unfold attachEventListeners, addTouchSupport, modify.
  rewrite updateCarousel_total. unfold updateTotalSlides, bind, gets, modify.
  intros [= <-].
  match goal with
  | |- context [after updateCarousel ?x] => set (w0 := x)
  end.
  pose proof (render_synced w0) as Hs.
  destruct (render_engine w0) as (Hi & HN & _).
  destruct (render_page w0) as (Htr & Hind & Hcs & _ & _ & _ & Hpc & Hsp & Hsv).
  split; [exact Hs|]. split; [reflexivity|]. split.
  { change (length (indicators (dom (after updateCarousel w0))) =
            (length (indicators (dom0 p)) + slideCount p)%nat).
    rewrite Hind, length_imap. subst w0. simpl.
    rewrite length_app, length_replicate. reflexivity. }
  split; [exact Hpc|]. split; [exact Hsp | exact Hsv].
Qed.

(** The invariants of the page under events, together. *)
Lemma construction_events (config : CarouselConfig) (p : Page) (win : Window)
    (w0 : World) (es : list Event) :
  constructor config p win = Ok w0 ->
  exists w, run es w0 = Ok (tt, w) /\
    synced w /\
    totalSlides (this w) = Z.of_nat (slideCount p) /\
    totalSlidesText (dom w) = toString (Z.of_nat (slideCount p)) /\
    length (indicators (dom w)) =
      (length (indicators (dom0 p)) + slideCount p)%nat /\
    (1 <= slideCount p -> in_range (this w))%nat.
Proof.
  intros Hc. destruct (constructor_page _ _ _ _ Hc) as (Hs & Hts & Hlen & _).
  destruct (constructor_inv _ _ _ _ Hc) as (Ht & _).
  assert (HN : totalSlides (this w0) = Z.of_nat (slideCount p))
    by (rewrite Ht; reflexivity).
  apply (run_invariant (fun a =>
    synced a /\
    totalSlides (this a) = Z.of_nat (slideCount p) /\
    totalSlidesText (dom a) = toString (Z.of_nat (slideCount p)) /\
    length (indicators (dom a)) =
      (length (indicators (dom0 p)) + slideCount p)%nat /\
    (1 <= slideCount p -> in_range (this a))%nat)).
  - intros a b Hstep (Ha & HNa & Htsa & Hla & Hra).
    destruct (step_page a b Hstep) as (Htsb & Hlb & Hsb).
    destruct (step_configuration a b Hstep) as (HNb & _).
    split; [apply Hsb, Ha|]. split; [congruence|]. split; [congruence|].
    split; [congruence|]. intros H1. eapply step_in_range; eauto.
  - split; [exact Hs|]. split; [exact HN|]. split; [congruence|].
    split; [exact Hlen|]. intros H1. unfold in_range. rewrite Ht. simpl. lia.
Qed.

(** X4. After construction and any sequence of events, the page shows the
    current slide: the track is translated by [-currentIndex * 100] percent,
    the counter shows [currentIndex + 1], and the total shows the number of
    slides found at construction. *)
Theorem page_follows_index (config : CarouselConfig) (p : Page)
    (win : Window) (w0 : World) (es : list Event) :
  constructor config p win = Ok w0 ->
  exists w, run es w0 = Ok (tt, w) /\
    trackTransform (dom w) =
      ("translateX(" ++ toString (- currentIndex (this w) * 100) ++ "%)")%string /\
    currentSlideText (dom w) = toString (currentIndex (this w) + 1) /\
    totalSlidesText (dom w) = toString (Z.of_nat (slideCount p)).
Proof.
  intros Hc.
  destruct (construction_events config p win w0 es Hc)
    as (w & Hr & (Htr & Hcs & _) & _ & Hts & _).
  exists w. split; [exact Hr|]. split; [exact Htr|]. split; assumption.
Qed.

Lemma page_follows_index_witness :
  constructor pageConfig (pageWith 4) freshWindow = Ok (loaded 4) /\
  exists w,
    run [NextClick; NextClick; PlayPauseClick; PrevClick] (loaded 4)
      = Ok (tt, w) /\
    trackTransform (dom w) =
      ("translateX(" ++ toString (- currentIndex (this w) * 100) ++ "%)")%string /\
    currentSlideText (dom w) = toString (currentIndex (this w) + 1) /\
    totalSlidesText (dom w) = toString 4.
Proof.
  assert (Hc : constructor pageConfig (pageWith 4) freshWindow
               = Ok (loaded 4)) by reflexivity.
  split; [exact Hc|].
  exact (page_follows_index pageConfig (pageWith 4) freshWindow (loaded 4)
           [NextClick; NextClick; PlayPauseClick; PrevClick] Hc).
Defined.

(** X5. A render pass marks exactly the indicator at [currentIndex]: the
    number of indicators is unchanged, the indicator at position j is
    active if and only if j equals [currentIndex], and the number of
    active indicators is 1 when [currentIndex] designates an indicator and
    0 otherwise (as at index -1). *)
Theorem render_marks_current_indicator (w : World) :
  exists w', updateCarousel w = Ok (tt, w') /\
    length (indicators (dom w')) = length (indicators (dom w)) /\
    (forall j : nat,
       indicators (dom w') !! j = Some true <->
       (j < length (indicators (dom w)))%nat /\
       Z.of_nat j = currentIndex (this w)) /\
    activeCount (indicators (dom w')) =
      if bool_decide (0 <= currentIndex (this w)
                      < Z.of_nat (length (indicators (dom w))))
      then 1%nat else 0%nat.
Proof.
  rewrite updateCarousel_total. eexists. split; [reflexivity|].
  destruct (render_page w) as (_ & Hind & _). rewrite Hind.
  split; [apply length_imap|]. split; [|apply activeCount_imap].
  intros j. rewrite list_lookup_imap. split.
  - destruct (indicators (dom w) !! j) as [b|] eqn:E; simpl; [|discriminate].
    intros [= H]. apply bool_decide_eq_true in H.
    split; [eapply lookup_lt_Some, E | exact H].
  - intros [Hj Hi]. destruct (lookup_lt_is_Some_2 _ _ Hj) as [b ->].
    simpl. rewrite bool_decide_eq_true_2 by exact Hi. reflexivity.
Qed.

(** X6. After construction on a page with at least one slide, whatever
    events follow, exactly one indicator is active and it is the one at
    position [currentIndex]; the number of indicators stays the number the
    container had plus one per slide. *)
Theorem one_active_indicator (config : CarouselConfig) (p : Page)
    (win : Window) (w0 : World) (es : list Event) :
  constructor config p win = Ok w0 ->
  (1 <= slideCount p)%nat ->
  exists w, run es w0 = Ok (tt, w) /\
    length (indicators (dom w)) =
      (length (indicators (dom0 p)) + slideCount p)%nat /\
    activeCount (indicators (dom w)) = 1%nat /\
    indicators (dom w) !! Z.to_nat (currentIndex (this w)) = Some true.
Proof.
  intros Hc H1.
  destruct (construction_events config p win w0 es Hc)
    as (w & Hr & Hs & HN & _ & Hlen & Hin).
  specialize (Hin H1). unfold in_range in Hin. rewrite HN in Hin.
  exists w. split; [exact Hr|]. split; [exact Hlen|].
  assert (Hlt : 0 <= currentIndex (this w)
                < Z.of_nat (length (indicators (dom w))))
    by (rewrite Hlen; lia).
  split.
  - rewrite (synced_activeCount w Hs).
    rewrite bool_decide_eq_true_2 by exact Hlt. reflexivity.
  - destruct Hs as (_ & _ & Hp).
    assert (Hj : (Z.to_nat (currentIndex (this w))
                  < length (indicators (dom w)))%nat) by lia.
    destruct (lookup_lt_is_Some_2 _ _ Hj) as [b Hb].
    rewrite Hb. f_equal. rewrite (Hp _ _ Hb).
    apply bool_decide_eq_true_2. lia.
Qed.

Lemma one_active_indicator_witness :
  constructor pageConfig (pageWith 4) freshWindow = Ok (loaded 4) /\
  (1 <= slideCount (pageWith 4))%nat /\
  exists w,
    run [PrevClick; IndicatorClick 1; KeyDown "ArrowRight"] (loaded 4)
      = Ok (tt, w) /\
    length (indicators (dom w)) = 4%nat /\
    activeCount (indicators (dom w)) = 1%nat /\
    indicators (dom w) !! Z.to_nat (currentIndex (this w)) = Some true.
Proof.
  assert (Hc : constructor pageConfig (pageWith 4) freshWindow
               = Ok (loaded 4)) by reflexivity.
  assert (H1 : (1 <= slideCount (pageWith 4))%nat) by (simpl; lia).
  split; [exact Hc|]. split; [exact H1|].
  exact (one_active_indicator pageConfig (pageWith 4) freshWindow (loaded 4)
           [PrevClick; IndicatorClick 1; KeyDown "ArrowRight"] Hc H1).
Defined.

(** X7. The navigation buttons after a render pass. With looping enabled
    the pass leaves both [disabled] flags as they were. With looping
    disabled it sets them, and for an index in range the previous button
    is disabled exactly when [previousSlide] would leave the index where it
    is, and the next button exactly when [nextSlide] would. *)
Theorem buttons_disabled_iff_stuck (w : World) :
  exists w', updateCarousel w = Ok (tt, w') /\
    (enableLoop (this w) = true ->
       prevDisabled (dom w') = prevDisabled (dom w) /\
       nextDisabled (dom w') = nextDisabled (dom w)) /\
    (enableLoop (this w) = false ->
       0 <= currentIndex (this w) < totalSlides (this w) ->
       (prevDisabled (dom w') = true <->
          exists w2, previousSlide w' = Ok (tt, w2) /\
                     currentIndex (this w2) = currentIndex (this w')) /\
       (nextDisabled (dom w') = true <->
          exists w2, nextSlide w' = Ok (tt, w2) /\
                     currentIndex (this w2) = currentIndex (this w'))).
Proof.
  rewrite updateCarousel_total. eexists. split; [reflexivity|].
  destruct (render_page w) as (_ & _ & _ & _ & Hpd & Hnd & _).
  destruct (render_engine w) as (Hi & HN & _ & _ & Hl).
  rewrite Hpd, Hnd. split.
  - intros ->. split; reflexivity.
  - intros Hloop Hin. rewrite Hloop. split.
    + rewrite previousSlide_total. split.
      * intros H0. apply Z.eqb_eq in H0. eexists. split; [reflexivity|].
        destruct (render_engine (set_this (with_currentIndex
                    (previous_index (this (after updateCarousel w))))
                    (after updateCarousel w))) as (-> & _).
        simpl. unfold previous_index. rewrite Hi, Hl, Hloop, H0. reflexivity.
      * intros (w2 & [= <-] & H2). apply Z.eqb_eq.
        destruct (render_engine (set_this (with_currentIndex
                    (previous_index (this (after updateCarousel w))))
                    (after updateCarousel w))) as (E & _).
        rewrite E in H2. simpl in H2. unfold previous_index in H2.
        rewrite Hi, Hl, Hloop in H2.
        destruct (Z.gtb_spec (currentIndex (this w)) 0); lia.
    + rewrite nextSlide_total. split.
      * intros H0. apply Z.eqb_eq in H0. eexists. split; [reflexivity|].
        destruct (render_engine (set_this (with_currentIndex
                    (next_index (this (after updateCarousel w))))
                    (after updateCarousel w))) as (-> & _).
        simpl. unfold next_index. rewrite Hi, HN, Hl, Hloop.
        destruct (Z.ltb_spec (currentIndex (this w))
                             (totalSlides (this w) - 1)); [lia|reflexivity].
      * intros (w2 & [= <-] & H2). apply Z.eqb_eq.
        destruct (render_engine (set_this (with_currentIndex
                    (next_index (this (after updateCarousel w))))
                    (after updateCarousel w))) as (E & _).
        rewrite E in H2. simpl in H2. unfold next_index in H2.
        rewrite Hi, HN, Hl, Hloop in H2.
        destruct (Z.ltb_spec (currentIndex (this w))
                             (totalSlides (this w) - 1)); lia.
Qed.

Lemma buttons_disabled_iff_stuck_witness :
  exists w',
    updateCarousel (threeAt 2 false) = Ok (tt, w') /\
    nextDisabled (dom w') = true /\
    (exists w2, nextSlide w' = Ok (tt, w2) /\
                currentIndex (this w2) = currentIndex (this w')) /\
    prevDisabled (dom w') = false.
Proof.
  destruct (buttons_disabled_iff_stuck (threeAt 2 false))
    as (w' & Hr & _ & H).
  assert (Hin : 0 <= currentIndex (this (threeAt 2 false))
                < totalSlides (this (threeAt 2 false)))
    by (simpl; lia).
  destruct (H eq_refl Hin) as (_ & Hnext).
  exists w'. split; [exact Hr|].
  assert (E : w' = after updateCarousel (threeAt 2 false)).
  { rewrite updateCarousel_total in Hr. injection Hr as <-. reflexivity. }
  assert (Hnd : nextDisabled (dom w') = true) by (rewrite E; reflexivity).
  split; [exact Hnd|]. split; [apply Hnext, Hnd|].
  rewrite E. reflexivity.
Defined.

(** ** Input mapping *)

(** X8. A touch that starts at [a] and ends at [b] is a swipe only when
    the two differ by more than 50: it then runs [nextSlide] when the
    finger moved left ([a - b > 50]) and [previousSlide] when it moved
    right ([b - a > 50]); a move of 50 or less only records the two
    coordinates. *)
Theorem swipe_threshold (w : World) (a b : Z) :
  (a - b > 50 ->
     run [TouchStart a; TouchEnd b] w = nextSlide (with_touch a b w)) /\
  (b - a > 50 ->
     run [TouchStart a; TouchEnd b] w = previousSlide (with_touch a b w)) /\
  (- 50 <= a - b <= 50 ->
     run [TouchStart a; TouchEnd b] w = Ok (tt, with_touch a b w)).
Proof.
  assert (E : run [TouchStart a; TouchEnd b] w =
              if Z.abs (a - b) >? 50
              then (if a - b >? 0 then nextSlide (with_touch a b w)
                    else previousSlide (with_touch a b w))
              else Ok (tt, with_touch a b w)).
  { unfold run. simpl. unfold onTouchStart, onTouchEnd, bind, modify, get, ret,
      swipeThreshold, with_touch. simpl.
    destruct (Z.abs (a - b) >? 50); [|reflexivity].
    destruct (a - b >? 0).
    - destruct (nextSlide _) as [[[] ?]|]; reflexivity.
    - destruct (previousSlide _) as [[[] ?]|]; reflexivity. }
  rewrite E. repeat split; intros H.
  - destruct (Z.gtb_spec (Z.abs (a - b)) 50); [|lia].
    destruct (Z.gtb_spec (a - b) 0); [reflexivity|lia].
  - destruct (Z.gtb_spec (Z.abs (a - b)) 50); [|lia].
    destruct (Z.gtb_spec (a - b) 0); [lia|reflexivity].
  - destruct (Z.gtb_spec (Z.abs (a - b)) 50); [lia|reflexivity].
Qed.

Lemma swipe_threshold_witness :
  run [TouchStart 200; TouchEnd 149] (loaded 3)
    = nextSlide (with_touch 200 149 (loaded 3)) /\
  run [TouchStart 100; TouchEnd 151] (loaded 3)
    = previousSlide (with_touch 100 151 (loaded 3)) /\
  run [TouchStart 200; TouchEnd 150] (loaded 3)
    = Ok (tt, with_touch 200 150 (loaded 3)).
Proof.
  split; [|split].
  - apply (proj1 (swipe_threshold (loaded 3) 200 149)). reflexivity.
  - apply (proj1 (proj2 (swipe_threshold (loaded 3) 100 151))). reflexivity.
  - apply (proj2 (proj2 (swipe_threshold (loaded 3) 200 150))).
    split; discriminate.
Defined.

(** ** The play/pause button *)

(** X9. [toggleAutoPlay] flips the playing flag and makes the button show
    the new state: the [playing] class is set exactly when playing, the
    label is "Pause" or "Lecture automatique" and the icon the pause bars
    or the play triangle. A button without [span] or [svg] gets none. The
    index is not touched. *)
Theorem toggle_shows_on_button (w : World) :
  exists w', toggleAutoPlay w = Ok (tt, w') /\
    isPlaying (this w') = negb (isPlaying (this w)) /\
    button_shows w' /\
    (is_Some (buttonSpan (dom w')) <-> is_Some (buttonSpan (dom w))) /\
    (is_Some (buttonSvg (dom w')) <-> is_Some (buttonSvg (dom w))) /\
    currentIndex (this w') = currentIndex (this w).
Proof.
  unfold toggleAutoPlay, bind, gets. destruct (isPlaying (this w)) eqn:Hp.
  - rewrite stopAutoPlay_total. eexists. split; [reflexivity|].
    destruct (stop_world w) as (Ht & Hd & _). unfold button_shows.
    rewrite Ht, Hd. simpl.
    destruct (buttonSpan (dom w)), (buttonSvg (dom w)); repeat split;
      try congruence; intros [? H]; try discriminate H; eauto.
  - rewrite startAutoPlay_total. eexists. split; [reflexivity|].
    destruct (start_world w) as (Ht & Hd & _). unfold button_shows.
    rewrite Ht, Hd. simpl.
    destruct (buttonSpan (dom w)), (buttonSvg (dom w)); repeat split;
      try congruence; intros [? H]; try discriminate H; eauto.
Qed.

Lemma step_button (a b : World) :
  step a b -> button_shows a -> button_shows b.
Proof.
  intros [w k _ | w _ | w _ | w sx ex | w dt | w h iv _]; try tauto.
  - destruct (render_page (set_this (with_currentIndex k) w))
      as (_ & _ & _ & _ & _ & _ & Hpc & Hsp & Hsv).
    destruct (render_engine (set_this (with_currentIndex k) w))
      as (_ & _ & _ & Hp & _).
    unfold button_shows. rewrite Hpc, Hsp, Hsv, Hp. tauto.
  - intros _. destruct (start_world w) as (Ht & Hd & _).
    unfold button_shows. rewrite Ht, Hd. simpl.
    destruct (buttonSpan (dom w)), (buttonSvg (dom w)); repeat split;
      congruence.
  - intros _. destruct (stop_world w) as (Ht & Hd & _).
    unfold button_shows. rewrite Ht, Hd. simpl.
    destruct (buttonSpan (dom w)), (buttonSvg (dom w)); repeat split;
      congruence.
Qed.

(** X10. Once the button shows the playing flag it keeps showing it under
    every sequence of events: navigation never writes the button, and the
    play control rewrites all of it. *)
Theorem events_keep_button (es : list Event) (w : World) :
  button_shows w ->
  exists w', run es w = Ok (tt, w') /\ button_shows w'.
Proof.
  intros H. apply (run_invariant button_shows); [exact step_button | exact H].
Qed.

Lemma events_keep_button_witness :
  button_shows playing4 /\
  exists w',
    run [NextClick; PlayPauseClick; PrevClick; PlayPauseClick] playing4
      = Ok (tt, w') /\
    button_shows w'.
Proof.
  assert (H : button_shows playing4).
  { split; [reflexivity|]. split.
    - intros s E. vm_compute in E. injection E as <-. reflexivity.
    - intros i E. vm_compute in E. injection E as <-. reflexivity. }
  split; [exact H|].
  exact (events_keep_button
           [NextClick; PlayPauseClick; PrevClick; PlayPauseClick] playing4 H).
Defined.

(** ** Repeated navigation *)

Lemma times_succ (k : nat) (op : M unit) (w w1 : World) :
  op w = Ok (tt, w1) -> times (S k) op w = times k op w1.
Proof. intros H. unfold times. simpl replicate. apply sequence_cons, H. Qed.

(** An operation that acts on the index as [f] does, on indices
    satisfying [I], acts as the [k]-fold iterate of [f] when called [k]
    times. *)
Lemma times_index (op : M unit) (f : Z -> Z) (N : Z) (loop : bool)
    (I : Z -> Prop) :
  (forall w, totalSlides (this w) = N -> enableLoop (this w) = loop ->
             I (currentIndex (this w)) ->
             exists w', op w = Ok (tt, w') /\
               currentIndex (this w') = f (currentIndex (this w)) /\
               totalSlides (this w') = N /\ enableLoop (this w') = loop /\
               I (f (currentIndex (this w)))) ->
  forall (k : nat) (w : World),
    totalSlides (this w) = N -> enableLoop (this w) = loop ->
    I (currentIndex (this w)) ->
    exists w', times k op w = Ok (tt, w') /\
      currentIndex (this w') = Nat.iter k f (currentIndex (this w)).
Proof.
  intros Hop k. induction k as [|k IH]; intros w HN Hl Hi.
  - exists w. split; reflexivity.
  - destruct (Hop w HN Hl Hi) as (w1 & Hr & Hi1 & HN1 & Hl1 & HI1).
    rewrite <- Hi1 in HI1.
    destruct (IH w1 HN1 Hl1 HI1) as (w' & Hr' & Hi').
    exists w'. split; [rewrite (times_succ _ _ _ _ Hr); exact Hr'|].
    rewrite Hi', Hi1. symmetry. apply Nat.iter_succ_r.
Qed.

Lemma iter_forward_mod (N i : Z) (k : nat) :
  0 <= i < N ->
  Nat.iter k (fun j => (j + 1) mod N) i = (i + Z.of_nat k) mod N.
Proof.
  intros Hi. induction k as [|k IH].
  - simpl. rewrite Z.add_0_r, Z.mod_small by lia. reflexivity.
  - simpl Nat.iter. rewrite IH, Zplus_mod_idemp_l. f_equal. lia.
Qed.

Lemma iter_backward_mod (N i : Z) (k : nat) :
  0 <= i < N ->
  Nat.iter k (fun j => (j - 1) mod N) i = (i - Z.of_nat k) mod N.
Proof.
  intros Hi. induction k as [|k IH].
  - simpl. rewrite Z.sub_0_r, Z.mod_small by lia. reflexivity.
  - simpl Nat.iter. rewrite IH, Zminus_mod_idemp_l. f_equal. lia.
Qed.

Lemma iter_forward_min (N i : Z) (k : nat) :
  i <= N - 1 ->
  Nat.iter k (fun j => Z.min (j + 1) (N - 1)) i
  = Z.min (i + Z.of_nat k) (N - 1).
Proof.
  intros Hi. induction k as [|k IH]; simpl Nat.iter; [lia|].
  rewrite IH. lia.
Qed.

Lemma iter_backward_max (i : Z) (k : nat) :
  0 <= i ->
  Nat.iter k (fun j => Z.max (j - 1) 0) i = Z.max (i - Z.of_nat k) 0.
Proof.
  intros Hi. induction k as [|k IH]; simpl Nat.iter; [lia|].
  rewrite IH. lia.
Qed.

Lemma next_index_looping (c : Carousel) :
  enableLoop c = true -> in_range c ->
  next_index c = (currentIndex c + 1) mod totalSlides c.
Proof.
  unfold in_range, next_index. intros -> Hi.
  destruct (Z.ltb_spec (currentIndex c) (totalSlides c - 1)).
  - rewrite Z.mod_small by lia. reflexivity.
  - replace (currentIndex c + 1) with (totalSlides c) by lia.
    rewrite Z_mod_same_full. reflexivity.
Qed.

Lemma previous_index_looping (c : Carousel) :
  enableLoop c = true -> in_range c ->
  previous_index c = (currentIndex c - 1) mod totalSlides c.
Proof.
  unfold in_range, previous_index. intros -> Hi.
  destruct (Z.gtb_spec (currentIndex c) 0).
  - rewrite Z.mod_small by lia. reflexivity.
  - replace (currentIndex c - 1) with (-1 * totalSlides c + (totalSlides c - 1))
      by lia.
    rewrite Z.add_comm, Z_mod_plus_full, Z.mod_small by lia. reflexivity.
Qed.

(** X11. With looping enabled and the index in range, [k] calls of
    [nextSlide] lead to index [(i + k) mod totalSlides]; so [totalSlides]
    calls, one full cycle of autoplay ticks, come back to the slide they
    started from. *)
Theorem nextSlide_cycles (k : nat) (w : World) :
  enableLoop (this w) = true ->
  0 <= currentIndex (this w) < totalSlides (this w) ->
  exists w', times k nextSlide w = Ok (tt, w') /\
    currentIndex (this w') =
      (currentIndex (this w) + Z.of_nat k) mod totalSlides (this w) /\
    (Z.of_nat k = totalSlides (this w) ->
       currentIndex (this w') = currentIndex (this w)).
Proof.
  intros Hl Hi.
  destruct (times_index nextSlide
              (fun j => (j + 1) mod totalSlides (this w))
              (totalSlides (this w)) true
              (fun j => 0 <= j < totalSlides (this w))) with (k := k) (w := w)
    as (w' & Hr & Hi'); try assumption; try reflexivity.
  - intros a HN Hla Hia.
    destruct (nextSlide_returns a) as (a' & Hr & Hi1 & HN1 & _ & _ & Hl1).
    exists a'. split; [exact Hr|].
    rewrite Hi1, (next_index_looping (this a)) by (assumption || (unfold in_range; lia)).
    rewrite HN. repeat split; try congruence; apply Z.mod_pos_bound; lia.
  - exists w'. split; [exact Hr|].
    rewrite Hi', iter_forward_mod by exact Hi. split; [reflexivity|].
    intros ->. rewrite <- (Z.mul_1_l (totalSlides (this w))) at 1.
    rewrite Z_mod_plus_full. apply Z.mod_small, Hi.
Qed.

Lemma nextSlide_cycles_witness :
  enableLoop (this (loaded 4)) = true /\
  0 <= currentIndex (this (loaded 4)) < totalSlides (this (loaded 4)) /\
  exists w', times 4 nextSlide (loaded 4) = Ok (tt, w') /\
             currentIndex (this w') = currentIndex (this (loaded 4)).
Proof.
  assert (Hl : enableLoop (this (loaded 4)) = true) by reflexivity.
  assert (Hi : 0 <= currentIndex (this (loaded 4))
               < totalSlides (this (loaded 4)))
    by (vm_compute; split; [discriminate | reflexivity]).
  split; [exact Hl|]. split; [exact Hi|].
  destruct (nextSlide_cycles 4 (loaded 4) Hl Hi) as (w' & Hr & _ & Hback).
  exists w'. split; [exact Hr|]. apply Hback. reflexivity.
Defined.

(** X12. With looping enabled and the index in range, [k] calls of
    [previousSlide] lead to index [(i - k) mod totalSlides], and
    [totalSlides] calls come back to the start. *)
Theorem previousSlide_cycles (k : nat) (w : World) :
  enableLoop (this w) = true ->
  0 <= currentIndex (this w) < totalSlides (this w) ->
  exists w', times k previousSlide w = Ok (tt, w') /\
    currentIndex (this w') =
      (currentIndex (this w) - Z.of_nat k) mod totalSlides (this w) /\
    (Z.of_nat k = totalSlides (this w) ->
       currentIndex (this w') = currentIndex (this w)).
Proof.
  intros Hl Hi.
  destruct (times_index previousSlide
              (fun j => (j - 1) mod totalSlides (this w))
              (totalSlides (this w)) true
              (fun j => 0 <= j < totalSlides (this w))) with (k := k) (w := w)
    as (w' & Hr & Hi'); try assumption; try reflexivity.
  - intros a HN Hla Hia.
    destruct (previousSlide_returns a) as (a' & Hr & Hi1 & HN1 & _ & _ & Hl1).
    exists a'. split; [exact Hr|].
    rewrite Hi1, (previous_index_looping (this a))
      by (assumption || (unfold in_range; lia)).
    rewrite HN. repeat split; try congruence; apply Z.mod_pos_bound; lia.
  - exists w'. split; [exact Hr|].
    rewrite Hi', iter_backward_mod by exact Hi. split; [reflexivity|].
    intros ->.
    replace (currentIndex (this w) - totalSlides (this w))
      with (currentIndex (this w) + (-1) * totalSlides (this w)) by lia.
    rewrite Z_mod_plus_full. apply Z.mod_small, Hi.
Qed.

Lemma previousSlide_cycles_witness :
  enableLoop (this (loaded 4)) = true /\
  0 <= currentIndex (this (loaded 4)) < totalSlides (this (loaded 4)) /\
  exists w', times 3 previousSlide (loaded 4) = Ok (tt, w') /\
             currentIndex (this w') = 1.
Proof.
  assert (Hl : enableLoop (this (loaded 4)) = true) by reflexivity.
  assert (Hi : 0 <= currentIndex (this (loaded 4))
               < totalSlides (this (loaded 4)))
    by (vm_compute; split; [discriminate | reflexivity]).
  split; [exact Hl|]. split; [exact Hi|].
  destruct (previousSlide_cycles 3 (loaded 4) Hl Hi) as (w' & Hr & Hk & _).
  exists w'. split; [exact Hr|]. rewrite Hk. reflexivity.
Defined.

(** X13. With looping disabled navigation saturates at the ends: from an
    index in range, [k] calls of [nextSlide] lead to
    [min (i + k) (totalSlides - 1)] and [k] calls of [previousSlide] to
    [max (i - k) 0]. *)
Theorem navigation_saturates (k : nat) (w : World) :
  enableLoop (this w) = false ->
  0 <= currentIndex (this w) < totalSlides (this w) ->
  (exists w', times k nextSlide w = Ok (tt, w') /\
     currentIndex (this w') =
       Z.min (currentIndex (this w) + Z.of_nat k) (totalSlides (this w) - 1)) /\
  (exists w', times k previousSlide w = Ok (tt, w') /\
     currentIndex (this w') = Z.max (currentIndex (this w) - Z.of_nat k) 0).
Proof.
  intros Hl Hi. split.
  - destruct (times_index nextSlide
                (fun j => Z.min (j + 1) (totalSlides (this w) - 1))
                (totalSlides (this w)) false
                (fun j => j <= totalSlides (this w) - 1))
      with (k := k) (w := w) as (w' & Hr & Hi');
      try assumption; try reflexivity; try lia.
    + intros a HN Hla Hia.
      destruct (nextSlide_returns a) as (a' & Hr & Hi1 & HN1 & _ & _ & Hl1).
      exists a'. split; [exact Hr|]. rewrite Hi1. unfold next_index.
      rewrite HN, Hla.
      destruct (Z.ltb_spec (currentIndex (this a)) (totalSlides (this w) - 1));
        repeat split; try congruence; lia.
    + exists w'. split; [exact Hr|].
      rewrite Hi'. apply iter_forward_min. lia.
  - destruct (times_index previousSlide (fun j => Z.max (j - 1) 0)
                (totalSlides (this w)) false (fun j => 0 <= j))
      with (k := k) (w := w) as (w' & Hr & Hi');
      try assumption; try reflexivity; try lia.
    + intros a HN Hla Hia.
      destruct (previousSlide_returns a)
        as (a' & Hr & Hi1 & HN1 & _ & _ & Hl1).
      exists a'. split; [exact Hr|]. rewrite Hi1. unfold previous_index.
      rewrite Hla.
      destruct (Z.gtb_spec (currentIndex (this a)) 0);
        repeat split; try congruence; lia.
    + exists w'. split; [exact Hr|].
      rewrite Hi'. apply iter_backward_max. lia.
Qed.

Lemma navigation_saturates_witness :
  enableLoop (this (threeAt 1 false)) = false /\
  0 <= currentIndex (this (threeAt 1 false))
    < totalSlides (this (threeAt 1 false)) /\
  (exists w', times 5 nextSlide (threeAt 1 false) = Ok (tt, w') /\
              currentIndex (this w') = 2) /\
  (exists w', times 5 previousSlide (threeAt 1 false) = Ok (tt, w') /\
              currentIndex (this w') = 0).
Proof.
  assert (Hl : enableLoop (this (threeAt 1 false)) = false) by reflexivity.
  assert (Hi : 0 <= currentIndex (this (threeAt 1 false))
               < totalSlides (this (threeAt 1 false))) by (simpl; lia).
  split; [exact Hl|]. split; [exact Hi|].
  destruct (navigation_saturates 5 (threeAt 1 false) Hl Hi)
    as ((w1 & Hr1 & Hi1) & (w2 & Hr2 & Hi2)).
  split.
  - exists w1. split; [exact Hr1|]. rewrite Hi1. reflexivity.
  - exists w2. split; [exact Hr2|]. rewrite Hi2. reflexivity.
Defined.

(** X14. [previousSlide] undoes [nextSlide] and conversely, for an index
    in range, unless looping is disabled and the first of the two calls
    was stopped at an end: next then previous restores the index when
    looping is enabled or the index is not the last one, previous then
    next when looping is enabled or the index is not 0. *)
Theorem next_previous_round_trip (w : World) :
  0 <= currentIndex (this w) < totalSlides (this w) ->
  (enableLoop (this w) = true \/
   currentIndex (this w) < totalSlides (this w) - 1 ->
   exists w', sequence_ [nextSlide; previousSlide] w = Ok (tt, w') /\
              currentIndex (this w') = currentIndex (this w)) /\
  (enableLoop (this w) = true \/ currentIndex (this w) > 0 ->
   exists w', sequence_ [previousSlide; nextSlide] w = Ok (tt, w') /\
              currentIndex (this w') = currentIndex (this w)).
Proof.
  intros Hi. split; intros Hok.
  - destruct (nextSlide_returns w) as (w1 & Hr1 & Hi1 & HN1 & _ & _ & Hl1).
    destruct (previousSlide_returns w1) as (w2 & Hr2 & Hi2 & _).
    exists w2. split.
    { rewrite (sequence_cons _ _ _ _ Hr1), (sequence_cons _ _ _ _ Hr2).
      reflexivity. }
    rewrite Hi2. unfold previous_index. rewrite Hi1, HN1, Hl1.
    unfold next_index.
    destruct (Z.ltb_spec (currentIndex (this w)) (totalSlides (this w) - 1)).
    + destruct (Z.gtb_spec (currentIndex (this w) + 1) 0); lia.
    + destruct Hok as [Hl|]; [|lia]. rewrite Hl. simpl. lia.
  - destruct (previousSlide_returns w)
      as (w1 & Hr1 & Hi1 & HN1 & _ & _ & Hl1).
    destruct (nextSlide_returns w1) as (w2 & Hr2 & Hi2 & _).
    exists w2. split.
    { rewrite (sequence_cons _ _ _ _ Hr1), (sequence_cons _ _ _ _ Hr2).
      reflexivity. }
    rewrite Hi2. unfold next_index. rewrite Hi1, HN1, Hl1.
    unfold previous_index.
    destruct (Z.gtb_spec (currentIndex (this w)) 0).
    + destruct (Z.ltb_spec (currentIndex (this w) - 1)
                           (totalSlides (this w) - 1)); lia.
    + destruct Hok as [Hl|]; [|lia]. rewrite Hl.
      rewrite Z.ltb_irrefl. lia.
Qed.

Lemma next_previous_round_trip_witness :
  0 <= currentIndex (this (threeAt 2 true))
    < totalSlides (this (threeAt 2 true)) /\
  (exists w', sequence_ [nextSlide; previousSlide] (threeAt 2 true)
                = Ok (tt, w') /\
              currentIndex (this w') = 2) /\
  (exists w', sequence_ [previousSlide; nextSlide] (threeAt 2 true)
                = Ok (tt, w') /\
              currentIndex (this w') = 2).
Proof.
  assert (Hi : 0 <= currentIndex (this (threeAt 2 true))
               < totalSlides (this (threeAt 2 true))) by (simpl; lia).
  split; [exact Hi|].
  destruct (next_previous_round_trip (threeAt 2 true) Hi) as (Hnp & Hpn).
  split.
  - exact (Hnp (or_introl eq_refl)).
  - exact (Hpn (or_introl eq_refl)).
Defined.

(** ** Autoplay under event-driven use *)

Lemma driven_reset (t : option nat) (m : gmap nat Interval) (nh : nat)
    (iv : Interval) :
  driven t true m nh -> driven (Some nh) true (<[nh := iv]> (cancel t m)) (S nh).
Proof.
  intros [D _]. split; [eapply discipline_reset, D|].
  intros _. exists nh. split; [reflexivity|].
  rewrite lookup_insert_eq. eauto.
Qed.

Lemma driven_stop (t : option nat) (p : bool) (m : gmap nat Interval)
    (nh : nat) :
  driven t p m nh -> driven None false (cancel t m) nh.
Proof.
  intros [D _]. split; [eapply discipline_stop, D | discriminate].
Qed.

Lemma driven_start (t : option nat) (m : gmap nat Interval) (nh : nat)
    (iv : Interval) :
  driven t false m nh -> driven (Some nh) true (<[nh := iv]> m) (S nh).
Proof.
  intros [D _]. split; [eapply discipline_start; [exact D | reflexivity]|].
  intros _. exists nh. split; [reflexivity|].
  rewrite lookup_insert_eq. eauto.
Qed.

Lemma driven_rearm (t : option nat) (p : bool) (m : gmap nat Interval)
    (nh h : nat) (iv : Interval) :
  driven t p m nh -> is_Some (m !! h) -> driven t p (<[h := iv]> m) nh.
Proof.
  intros [D Hp] Hh. split; [eapply discipline_rearm; [exact D | exact Hh]|].
  intros E. destruct (Hp E) as (h0 & Ht & Hlive).
  exists h0. split; [exact Ht|].
  destruct (decide (h = h0)) as [->|Hne].
  - rewrite lookup_insert_eq. eauto.
  - rewrite lookup_insert_ne by exact Hne. exact Hlive.
Qed.

Lemma constructor_driven (config : CarouselConfig) (p : Page) (win : Window)
    (w : World) :
  intervals win = ∅ ->
  constructor config p win = Ok w ->
  holds driven w.
Proof.
  intros Hwin Hc. split.
  - exact (constructor_disciplined _ _ _ _ Hwin Hc).
  - destruct (constructor_inv _ _ _ _ Hc) as (-> & _). discriminate.
Qed.

Lemma run_driven (es : list Event) (w : World) :
  holds driven w -> exists w', run es w = Ok (tt, w') /\ holds driven w'.
Proof.
  apply (run_holds driven).
  - exact driven_reset.
  - exact driven_stop.
  - exact driven_start.
  - intros t p m nh h iv. apply driven_rearm.
Qed.

(** X15. When the carousel is constructed on an empty timer table and
    then only driven by events, the timer table mirrors the playing flag:
    while playing exactly one interval is live and it is the one whose
    handle the object holds; while paused no handle is held and no
    interval is live. *)
Theorem timer_table_mirrors_playing (config : CarouselConfig) (p : Page)
    (win : Window) (w0 : World) (es : list Event) :
  intervals win = ∅ ->
  constructor config p win = Ok w0 ->
  exists w, run es w0 = Ok (tt, w) /\
    (isPlaying (this w) = true ->
       size (intervals (window w)) = 1%nat /\
       exists h, autoPlayTimer (this w) = Some h /\
                 is_Some (intervals (window w) !! h)) /\
    (isPlaying (this w) = false ->
       autoPlayTimer (this w) = None /\ intervals (window w) = ∅).
Proof.
  intros Hwin Hc.
  destruct (run_driven es w0 (constructor_driven _ _ _ _ Hwin Hc))
    as (w & Hr & D & Hlive).
  exists w. split; [exact Hr|]. split.
  - intros Hp. destruct (Hlive Hp) as (h & Ht & Hh). split; [|eauto].
    pose proof (discipline_size _ _ _ _ D) as Hle.
    assert (Hne : size (intervals (window w)) <> 0%nat).
    { intros E. apply map_size_empty_inv in E. rewrite E in Hh.
      destruct Hh as [x Hx]. rewrite lookup_empty in Hx. discriminate. }
    lia.
  - intros Hp. destruct D as (Hall & Hpaused & _).
    split; [apply Hpaused, Hp|].
    apply map_empty. intros h.
    destruct (intervals (window w) !! h) as [iv|] eqn:E; [|reflexivity].
    assert (Ht : autoPlayTimer (this w) = Some h)
      by (apply Hall; rewrite E; eauto).
    rewrite (Hpaused Hp) in Ht. discriminate.
Qed.

Lemma timer_table_mirrors_playing_witness :
  intervals freshWindow = ∅ /\
  constructor pageConfig (pageWith 4) freshWindow = Ok (loaded 4) /\
  exists w,
    run [PlayPauseClick; NextClick; IntervalFires 2; PlayPauseClick]
        (loaded 4) = Ok (tt, w) /\
    autoPlayTimer (this w) = None /\ intervals (window w) = ∅.
Proof.
  assert (Hwin : intervals freshWindow = ∅) by reflexivity.
  assert (Hc : constructor pageConfig (pageWith 4) freshWindow
               = Ok (loaded 4)) by reflexivity.
  split; [exact Hwin|]. split; [exact Hc|].
  destruct (timer_table_mirrors_playing pageConfig (pageWith 4) freshWindow
              (loaded 4)
              [PlayPauseClick; NextClick; IntervalFires 2; PlayPauseClick]
              Hwin Hc) as (w & Hr & _ & Hpaused).
  exists w. split; [exact Hr|]. apply Hpaused.
  assert (E : w = after (run [PlayPauseClick; NextClick; IntervalFires 2;
                              PlayPauseClick]) (loaded 4))
    by (unfold after; rewrite Hr; reflexivity).
  rewrite E. reflexivity.
Defined.



Lemma step_period (a b : World) :
  step a b ->
  map_Forall (fun _ iv => delay iv = autoPlayInterval (this a))
             (intervals (window a)) ->
  map_Forall (fun _ iv => delay iv = autoPlayInterval (this b))
             (intervals (window b)).
Proof.
  intros Hs Ha. destruct (step_configuration a b Hs) as (_ & -> & _).
  destruct Hs as [w k _ | w _ | w _ | w sx ex | w dt | w h iv Hh];
    try exact Ha.
  - destruct (isPlaying (this w)) eqn:Hp.
    + destruct (render_playing (set_this (with_currentIndex k) w) Hp)
        as (_ & Hm & _).
      rewrite Hm. apply map_Forall_insert_2; [reflexivity|].
      simpl. destruct (autoPlayTimer (this w)); simpl;
        [apply map_Forall_delete|]; exact Ha.
    + destruct (render_paused (set_this (with_currentIndex k) w) Hp)
        as (_ & -> & _). exact Ha.
  - destruct (start_world w) as (_ & _ & -> & _).
    apply map_Forall_insert_2; [reflexivity | exact Ha].
  - destruct (stop_world w) as (_ & _ & -> & _).
    destruct (autoPlayTimer (this w)); simpl;
      [apply map_Forall_delete|]; exact Ha.
  - simpl. apply map_Forall_insert_2; [|exact Ha].
    simpl. exact (Ha h iv Hh).
Qed.

(** X17. After construction on an empty timer table and any sequence of
    events, every live interval has the period the constructor computed
    from the configuration ([config.autoPlayInterval || 3000]). *)
Theorem live_intervals_have_configured_period (config : CarouselConfig)
    (p : Page) (win : Window) (w0 : World) (es : list Event) :
  intervals win = ∅ ->
  constructor config p win = Ok w0 ->
  exists w, run es w0 = Ok (tt, w) /\
    forall h iv, intervals (window w) !! h = Some iv ->
      delay iv = or_number (cfg_autoPlayInterval config) 3000.
Proof.
  intros Hwin Hc. destruct (constructor_inv _ _ _ _ Hc) as (Ht & Hw & _).
  destruct (run_invariant (fun a =>
              autoPlayInterval (this a)
                = or_number (cfg_autoPlayInterval config) 3000 /\
              map_Forall (fun _ iv => delay iv = autoPlayInterval (this a))
                         (intervals (window a))) es w0)
    as (w & Hr & Hms & Hall).
  - intros a b Hs (Hms & Hall). split; [|eapply step_period; eassumption].
    destruct (step_configuration a b Hs) as (_ & -> & _). exact Hms.
  - split; [rewrite Ht; reflexivity|].
    rewrite Hw, Hwin. apply map_Forall_empty.
  - exists w. split; [exact Hr|]. intros h iv Hh.
    rewrite <- Hms. exact (Hall h iv Hh).
Qed.

Lemma live_intervals_have_configured_period_witness :
  intervals freshWindow = ∅ /\
  constructor pageConfig (pageWith 4) freshWindow = Ok (loaded 4) /\
  exists w,
    run [PlayPauseClick; NextClick; IntervalFires 2] (loaded 4) = Ok (tt, w) /\
    forall h iv, intervals (window w) !! h = Some iv -> delay iv = 4000.
Proof.
  assert (Hwin : intervals freshWindow = ∅) by reflexivity.
  assert (Hc : constructor pageConfig (pageWith 4) freshWindow
               = Ok (loaded 4)) by reflexivity.
  split; [exact Hwin|]. split; [exact Hc|].
  exact (live_intervals_have_configured_period pageConfig (pageWith 4)
           freshWindow (loaded 4) [PlayPauseClick; NextClick; IntervalFires 2]
           Hwin Hc).
Defined.

(** ** Construction failures *)

Lemma getElements_first_missing (pre post : list string) (s : string)
    (p : Page) :
  Forall (fun x => x ∈ present p) pre ->
  s ∉ present p ->
  getElements (pre ++ s :: post) p
  = Throw ("Élément " ++ s ++ " introuvable")%string.
Proof.
  intros Hpre Hs. induction Hpre as [|x pre Hx _ IH]; simpl.
  - unfold getElement. rewrite bool_decide_eq_false_2 by exact Hs.
    reflexivity.
  - unfold getElement at 1. rewrite bool_decide_eq_true_2 by exact Hx.
    exact IH.
Qed.

(** X18. Construction succeeds exactly on the pages that have all seven
    required elements: the track, the two buttons, the indicator
    container, the two counters and the play/pause button. The number of
    slides plays no part: a page without slides is accepted. *)
Theorem constructor_succeeds_iff (config : CarouselConfig) (p : Page)
    (win : Window) :
  (exists w, constructor config p win = Ok w) <->
  Forall (fun s => s ∈ present p) required.
Proof.
  split.
  - intros [w Hc]. apply getElements_ok.
    destruct (getElements required p) as [[]|e] eqn:E; [reflexivity|].
    rewrite (constructor_throws _ _ _ _ E) in Hc. discriminate.
  - intros H. apply getElements_ok in H.
    destruct (constructor_returns config p win H) as (w & Hr & _).
    exists w. exact Hr.
Qed.

Lemma constructor_succeeds_iff_witness :
  (exists w, constructor pageConfig (pageWith 0) freshWindow = Ok w) /\
  ~ (exists w, constructor pageConfig (pageWithout "#totalSlides")
                 freshWindow = Ok w).
Proof.
  split.
  - apply (proj2 (constructor_succeeds_iff pageConfig (pageWith 0)
                    freshWindow)).
    apply (bool_decide_unpack _). vm_compute. exact I.
  - intros H.
    apply (proj1 (constructor_succeeds_iff pageConfig
                    (pageWithout "#totalSlides") freshWindow)) in H.
    revert H. apply (bool_decide_unpack _). vm_compute. exact I.
Defined.

(** X19. When a required element is missing, construction throws before
    anything is set up, and the message names the first missing selector
    in the order the constructor looks them up. *)
Theorem constructor_names_first_missing (config : CarouselConfig) (p : Page)
    (win : Window) (pre post : list string) (s : string) :
  required = pre ++ s :: post ->
  Forall (fun x => x ∈ present p) pre ->
  s ∉ present p ->
  constructor config p win = Throw ("Élément " ++ s ++ " introuvable")%string.
Proof.
  intros Hreq Hpre Hs. apply constructor_throws. rewrite Hreq.
  apply getElements_first_missing; assumption.
Qed.

Lemma constructor_names_first_missing_witness :
  required = ["#carouselTrack"; "#prevBtn"]%string
             ++ "#nextBtn"%string
             :: ["#carouselIndicators"; "#currentSlide"; "#totalSlides";
                 "#playPauseBtn"]%string /\
  Forall (fun x => x ∈ present (pageWithout "#nextBtn"))
         ["#carouselTrack"; "#prevBtn"]%string /\
  ("#nextBtn"%string ∉ present (pageWithout "#nextBtn")) /\
  constructor pageConfig (pageWithout "#nextBtn") freshWindow
  = Throw "Élément #nextBtn introuvable"%string.
Proof.
  assert (Hreq : required = ["#carouselTrack"; "#prevBtn"]%string
                 ++ "#nextBtn"%string
                 :: ["#carouselIndicators"; "#currentSlide"; "#totalSlides";
                     "#playPauseBtn"]%string) by reflexivity.
  assert (Hpre : Forall (fun x => x ∈ present (pageWithout "#nextBtn"))
                        ["#carouselTrack"; "#prevBtn"]%string).
  { apply (bool_decide_unpack _). vm_compute. exact I. }
  assert (Hs : ("#nextBtn"%string ∉ present (pageWithout "#nextBtn"))).
  { apply (bool_decide_unpack _). vm_compute. exact I. }
  split; [exact Hreq|]. split; [exact Hpre|]. split; [exact Hs|].
  exact (constructor_names_first_missing pageConfig (pageWithout "#nextBtn")
           freshWindow _ _ _ Hreq Hpre Hs).
Defined.

(** ** The carousel without slides *)

(** X20. Constructed on a page without slides and with looping disabled,
    the carousel is inert: no indicator is created, and under every
    sequence of events the index stays 0 and every [goToSlide] is
    ignored. *)
Theorem empty_carousel_is_inert (config : CarouselConfig) (p : Page)
    (win : Window) (w0 : World) (es : list Event) :
  constructor config p win = Ok w0 ->
  slideCount p = 0%nat ->
  enableLoop (this w0) = false ->
  exists w, run es w0 = Ok (tt, w) /\
    currentIndex (this w) = 0 /\
    length (indicators (dom w)) = length (indicators (dom0 p)) /\
    (forall k, goToSlide k w = Ok (tt, w)).
Proof.
  intros Hc Hn Hl.
  destruct (constructor_inv _ _ _ _ Hc) as (Ht & _).
  destruct (constructor_page _ _ _ _ Hc) as (_ & _ & Hlen & _).
  destruct (run_invariant (fun a =>
              currentIndex (this a) = 0 /\ totalSlides (this a) = 0 /\
              enableLoop (this a) = false /\
              length (indicators (dom a)) = length (indicators (dom0 p)))
              es w0) as (w & Hr & Hi & HN & _ & Hlw).
  - intros a b Hs (Hi & HN & Hla & Hlena).
    destruct (step_configuration a b Hs) as (HNb & _ & Hlb).
    destruct (step_page a b Hs) as (_ & Hlenb & _).
    split; [|split; [congruence | split; congruence]].
    destruct (step_index a b Hs) as [E | [E | [E | E]]].
    + congruence.
    + rewrite E. unfold next_index. rewrite Hi, HN, Hla. reflexivity.
    + rewrite E. unfold previous_index. rewrite Hi, Hla. reflexivity.
    + lia.
  - rewrite Ht. simpl. rewrite Hn. repeat split.
    + rewrite Ht in Hl. exact Hl.
    + rewrite Hlen, Hn. lia.
  - exists w. split; [exact Hr|]. split; [exact Hi|]. split; [exact Hlw|].
    intros k. apply goToSlide_out_of_range. lia.
Qed.

Lemma empty_carousel_is_inert_witness :
  exists w0,
    constructor noLoop (pageWith 0) freshWindow = Ok w0 /\
    slideCount (pageWith 0) = 0%nat /\
    enableLoop (this w0) = false /\
    exists w,
      run [PrevClick; NextClick; KeyDown "ArrowLeft"; IndicatorClick 0] w0
        = Ok (tt, w) /\
      currentIndex (this w) = 0 /\
      goToSlide 0 w = Ok (tt, w).
Proof.
  eexists. split; [reflexivity|]. split; [reflexivity|].
  split; [reflexivity|].
  destruct (empty_carousel_is_inert noLoop (pageWith 0) freshWindow _
              [PrevClick; NextClick; KeyDown "ArrowLeft"; IndicatorClick 0]
              eq_refl eq_refl eq_refl) as (w & Hr & Hi & _ & Hgo).
  exists w. split; [exact Hr|]. split; [exact Hi | apply Hgo].
Defined.
